(** * Message: conversation routing, classification and replies

    A shallow embedding of [src/message.js] (class [Message]) and the
    properties of its conversation key, continuation routing, mention
    classification, link extraction and outbound replies.

    Conventions of the embedding:
    - a JavaScript value is a [JsVal]; a number is a double ([float], the
      binary64 numbers of IEEE 754 with their arithmetic), objects are
      finite maps from property names to values;
    - a JavaScript string is a [string]; each character stands for one
      UTF-16 code unit below 256;
    - [Date.now ()] and [Math.random ()] are explicit arguments, doubles
      as every number;
    - calls on collaborators (the conversation store, the platform's
      [chat.postMessage], the callback of [respond]) are returned as data;
    - a thrown exception is the [Throw] case of [Result]. *)

From Stdlib Require Import ZArith Floats Ascii.
From stdpp Require Import base gmap strings list pretty.

#[local] Set Warnings "-register-all".
#[local] Open Scope string_scope.
#[local] Open Scope list_scope.

(** ** JavaScript values *)

Module JS.

Inductive JsVal :=
| JUndefined
| JNull
| JBool (b : bool)
| JNum (n : float)
| JStr (s : string)
| JArr (items : list JsVal)
| JObj (fields : gmap string JsVal).

(** ToBoolean of a number: false for [+0], [-0] and [NaN]. *)
Definition truthy_number (x : float) : bool :=
  negb ((x =? 0)%float || is_nan x).

(** ToBoolean: what [if (v)], [!v] and [a || b] test. *)
Definition truthy (v : JsVal) : bool :=
  match v with
  | JUndefined | JNull => false
  | JBool b => b
  | JNum n => truthy_number n
  | JStr s => negb (String.eqb s "")
  | JArr _ | JObj _ => true
  end.

(** [Math.floor] of a finite number, as an integer: a finite double is
    [m * 2^e] with its sign, and shifting rounds towards minus infinity.
    [None] for [NaN] and the infinities, which [Math.floor] returns as
    they are. *)
Definition SFfloor (x : spec_float) : option Z :=
  match x with
  | S754_zero _ => Some 0%Z
  | S754_finite s m e => Some (Z.shiftl (cond_Zopp s (Z.pos m)) e)
  | S754_infinity _ | S754_nan => None
  end.

Definition floor (x : float) : option Z := SFfloor (Prim2SF x).

(** The length of an array as a number: an array holds fewer than
    [2^32] elements, and such a length is a double. *)
Definition number_of_nat (n : nat) : float :=
  of_uint63 (Uint63.of_Z (Z.of_nat n)).

(** An optional string field of an object: [None] is [undefined]. *)
Definition of_field (x : option string) : JsVal :=
  match x with Some s => JStr s | None => JUndefined end.

(** [a || b] on optional string fields. *)
Definition js_or (a b : option string) : option string :=
  match a with
  | Some s => if String.eqb s "" then b else Some s
  | None => b
  end.

Inductive JsError :=
| TypeError (what : string).

Inductive Result (A : Type) :=
| Ok (a : A)
| Throw (e : JsError).
Arguments Ok {A} a.
Arguments Throw {A} e.

(** [Array.prototype.join] on an array of optional strings: an element
    that is [undefined] contributes the empty string. *)
Fixpoint join (sep : string) (xs : list (option string)) : string :=
  match xs with
  | [] => ""
  | [x] => default "" x
  | x :: rest => default "" x +:+ sep +:+ join sep rest
  end.

End JS.
Export JS.

(** ** Events and messages *)

(** [body.event] of a platform event. *)
Record SlackEvent := {
  ev_type : string;
  ev_text : option string
}.

Record Body := {
  event : option SlackEvent
}.

Record Meta := {
  team_id : option string;
  channel_id : option string;
  user_id : option string;
  bot_id : option string;
  bot_token : option string;
  app_token : option string;
  bot_user_id : string
}.

(** A pending continuation, as [route] writes it. *)
Record Continuation := {
  fnKey : string;
  state : JsVal;
  expiration : float
}.

(** Calls on [convoStore]. *)
Inductive StoreCall :=
| StoreSet (key : string) (value : Continuation)
| StoreDel (key : string).

Section Messages.

(** [Msg] is what a route handler receives as its first argument, [Res]
    what it returns. *)
Context {Msg Res : Type}.

Definition Handler : Type := Msg → JsVal → Res.

(** Modelled from the spec: the route registry of the application, which
    is not part of [message.js] (section 6: [lookup (handlerKey)] gives
    the handler or is absent). [getRoute] looks a key up in it. *)
Record SlackApp := {
  registry : gmap string Handler
}.

Definition getRoute (app : SlackApp) (key : string) : option Handler :=
  registry app !! key.

Record Message := {
  type : string;
  body : Body;
  meta : Meta;
  conversation_id : string;
  _slackapp : option SlackApp;
  override : option (Msg → Res)
}.

(** [constructor (type, body, meta)] *)
Definition new_Message (type : string) (body : Body) (meta : Meta) : Message :=
  {| type := type;
     body := body;
     meta := meta;
     conversation_id :=
       join "::" [team_id meta; channel_id meta; js_or (user_id meta) (bot_id meta)];
     _slackapp := None;
     override := None |}.

(** [attachSlackApp (slackapp)] *)
Definition attachSlackApp (m : Message) (app : SlackApp) : Message :=
  {| type := type m; body := body m; meta := meta m;
     conversation_id := conversation_id m;
     _slackapp := Some app;
     override := override m |}.

End Messages.
Arguments SlackApp : clear implicits.
Arguments Message : clear implicits.
Arguments Handler : clear implicits.

(** ** Strings *)

Module Str.

Definition chars (s : string) : list ascii := String.list_ascii_of_string s.
Definition of_chars (l : list ascii) : string := String.string_of_list_ascii l.

(** ToString of a value that is a string or [undefined], as
    [RegExp.prototype.test] applies it to its argument. *)
Definition to_string (x : option string) : string := default "undefined" x.

Fixpoint is_prefix (p l : list ascii) : bool :=
  match p, l with
  | [], _ => true
  | a :: p', b :: l' => bool_decide (a = b) && is_prefix p' l'
  | _ :: _, [] => false
  end.

(** [String.prototype.includes] *)
Fixpoint includes_chars (hay needle : list ascii) : bool :=
  is_prefix needle hay ||
  match hay with
  | [] => false
  | _ :: hay' => includes_chars hay' needle
  end.

Definition includes (hay needle : string) : bool :=
  includes_chars (chars hay) (chars needle).

(** WhiteSpace and LineTerminator code units below 256: TAB, LF, VT, FF,
    CR, SP and NBSP. *)
Definition white_space (c : ascii) : bool :=
  bool_decide (nat_of_ascii c ∈ [9; 10; 11; 12; 13; 32; 160]).

Fixpoint trim_start (l : list ascii) : list ascii :=
  match l with
  | c :: l' => if white_space c then trim_start l' else l
  | [] => []
  end.

(** [String.prototype.trim] *)
Definition trim_chars (l : list ascii) : list ascii :=
  rev (trim_start (rev (trim_start l))).

Definition trim (s : string) : string := of_chars (trim_chars (chars s)).

(** [s.split (sep)[0]] for a one-character separator: the text before
    the first separator, the whole text when there is none. *)
Fixpoint before_first (sep : ascii) (l : list ascii) : list ascii :=
  match l with
  | c :: l' => if bool_decide (c = sep) then [] else c :: before_first sep l'
  | [] => []
  end.

(** Line terminators below 256: LF and CR. *)
Definition line_terminator (c : ascii) : bool :=
  bool_decide (nat_of_ascii c ∈ [10; 13]).

(** The longest run of characters with a property at the start of a
    text, and the text after it. *)
Fixpoint run (p : ascii → bool) (l : list ascii) : list ascii :=
  match l with
  | c :: l' => if p c then c :: run p l' else []
  | [] => []
  end.

Fixpoint after_run (p : ascii → bool) (l : list ascii) : list ascii :=
  match l with
  | c :: l' => if p c then after_run p l' else l
  | [] => []
  end.

(** The first line of a text, and the text from its first line
    terminator on. *)
Definition line_prefix : list ascii → list ascii :=
  run (λ c, negb (line_terminator c)).

Definition line_rest : list ascii → list ascii :=
  after_run (λ c, negb (line_terminator c)).

(** A text without its leading colon, if it has one. *)
Definition drop_colon (l : list ascii) : list ascii :=
  match l with
  | c :: l' => if bool_decide (":"%char = c) then l' else l
  | [] => []
  end.

End Str.

(** ** Regular expressions

    The patterns of [message.js] as syntax trees, and the backtracking
    matcher of the language definition (continuation-passing, greedy
    quantifiers), for the constructs those patterns use. *)

Module RegExp.
Import Str.

Inductive regex :=
| REmpty
| RChar (c : ascii)                      (* a pattern character *)
| RDot                                   (* [.] *)
| RClass (negated : bool) (members : list ascii)   (* [[abc]], [[^abc]] *)
| RBol                                   (* [^] *)
| RSeq (r1 r2 : regex)
| RRepeat (min : nat) (max : option nat) (r : regex)  (* [r{min,max}], greedy *)
| RGroup (idx : nat) (r : regex).       (* the [idx]-th capturing group *)

(** The terms of a pattern one after the other. *)
Definition seq (rs : list regex) : regex := foldr RSeq REmpty rs.

(** A run of pattern characters. *)
Definition lits (l : list ascii) : regex := seq (RChar <$> l).

(** SyntaxCharacter: the characters a pattern text cannot use for
    themselves. Any other character of a pattern text is a pattern
    character and matches itself. *)
Definition syntax_character (c : ascii) : bool :=
  bool_decide (c ∈ chars "^$\.*+?()[]{}|").

Definition literal_text (s : string) : bool :=
  forallb (λ c, negb (syntax_character c)) (chars s).

(** The term that one character of a text denotes when a template
    writes the text, unescaped, into a pattern before a pattern
    character: a pattern character denotes itself and a dot denotes
    [.]. Another syntax character changes the shape of the pattern (an
    alternation, a group, a quantifier, a class) or makes the
    constructor throw SyntaxError; a text with one is outside these
    definitions ([None]: neither an answer nor a throw is derived from
    it), and the properties of the three patterns are stated for the
    texts within them. *)
Definition spliced_char (c : ascii) : option regex :=
  if syntax_character c then
    if bool_decide (c = "."%char) then Some RDot else None
  else Some (RChar c).

Fixpoint spliced (l : list ascii) : option (list regex) :=
  match l with
  | [] => Some []
  | c :: l' => a ← spliced_char c; rs ← spliced l'; Some (a :: rs)
  end.

(** Upper case of a code unit below 256 when that is again a single code
    unit below 256: a-z and the accented letters E0-FE other than F7. *)
Definition to_upper (c : ascii) : ascii :=
  let n := nat_of_ascii c in
  if (((97 <=? n) && (n <=? 122)) || ((224 <=? n) && (n <=? 254) && negb (n =? 247)))%nat
  then ascii_of_nat (n - 32)
  else c.

Record MatchState := {
  rest : list ascii;                 (* the input from endIndex on *)
  caps : gmap nat (list ascii)       (* the captures that are defined *)
}.

Definition Cont : Type := MatchState → option MatchState.

Definition step (p : ascii → bool) (k : Cont) (x : MatchState) : option MatchState :=
  match rest x with
  | d :: tl => if p d then k {| rest := tl; caps := caps x |} else None
  | [] => None
  end.

Fixpoint groups (r : regex) : list nat :=
  match r with
  | RSeq r1 r2 => groups r1 ++ groups r2
  | RRepeat _ _ r1 => groups r1
  | RGroup i r1 => i :: groups r1
  | _ => []
  end.

Definition clear_captures (gs : list nat) (c : gmap nat (list ascii)) : gmap nat (list ascii) :=
  foldr delete c gs.

(** RepeatMatcher: [m] matches the quantified atom, [gs] are its groups.
    An iteration that consumes nothing once [min] is reached is refused,
    so [min] plus the length of the input bounds the iterations;
    [fuel] counts them. *)
Fixpoint repeat_matcher (m : Cont → MatchState → option MatchState) (gs : list nat)
    (k : Cont) (fuel min : nat) (max : option nat) (x : MatchState) {struct fuel}
    : option MatchState :=
  match fuel with
  | O => None
  | S fuel' =>
    if bool_decide (max = Some 0) then k x else
    let d : Cont := λ y,
      if bool_decide (min = 0) && bool_decide (length (rest y) = length (rest x))
      then None
      else repeat_matcher m gs k fuel' (pred min) (pred <$> max) y in
    let xr := {| rest := rest x; caps := clear_captures gs (caps x) |} in
    match min with
    | S _ => m d xr
    | O => match m d xr with
           | Some z => Some z
           | None => k x
           end
    end
  end.

Section Matcher.

(** The [i] flag, and the length of the whole input. *)
Variable ignoreCase : bool.
Variable inputLength : nat.

Definition canonicalize (c : ascii) : ascii :=
  if ignoreCase then to_upper c else c.

Definition same_char (a d : ascii) : bool :=
  bool_decide (canonicalize a = canonicalize d).

Fixpoint rmatch (r : regex) (k : Cont) (x : MatchState) {struct r} : option MatchState :=
  match r with
  | REmpty => k x
  | RChar c => step (same_char c) k x
  | RDot => step (λ d, negb (line_terminator d)) k x
  | RClass negated members =>
      step (λ d, xorb negated (existsb (λ a, same_char a d) members)) k x
  | RBol => if bool_decide (length (rest x) = inputLength) then k x else None
  | RSeq r1 r2 => rmatch r1 (rmatch r2 k) x
  | RRepeat min max r1 =>
      repeat_matcher (rmatch r1) (groups r1) k (min + length (rest x) + 1) min max x
  | RGroup i r1 =>
      rmatch r1
        (λ y, k {| rest := rest y;
                   caps := <[i := take (length (rest x) - length (rest y)) (rest x)]> (caps y) |})
        x
  end.

End Matcher.

(** What is left of [input] after a run of pattern characters matched
    at its start. *)
Fixpoint strip_lits (ignoreCase : bool) (l input : list ascii) : option (list ascii) :=
  match l, input with
  | [], _ => Some input
  | a :: l', d :: input' =>
      if same_char ignoreCase a d then strip_lits ignoreCase l' input' else None
  | _ :: _, [] => None
  end.

(** A continuation that a greedy quantifier over atoms of one character
    with property [p] never has to give way to: it cannot fail, or it
    fails wherever another iteration is possible. *)
Definition settles (p : ascii → bool) (k : Cont) : Prop :=
  (∀ y, is_Some (k y)) ∨
  (∀ y c tl, rest y = c :: tl → p c = true → k y = None).

Record Match := {
  m_index : nat;                  (* where the match starts *)
  m_end : nat;                    (* where it ends: the new lastIndex of a global regex *)
  m_whole : string;               (* element 0 *)
  m_groups : gmap nat string      (* elements 1.. that are defined *)
}.

(** The search loop of RegExpBuiltinExec: the first start position at or
    after the current one where the pattern matches. *)
Fixpoint search (r : regex) (ignoreCase : bool) (inputLength : nat) (suffix : list ascii)
    : option Match :=
  match rmatch ignoreCase inputLength r Some {| rest := suffix; caps := ∅ |} with
  | Some y =>
      Some {| m_index := inputLength - length suffix;
              m_end := inputLength - length (rest y);
              m_whole := of_chars (take (length suffix - length (rest y)) suffix);
              m_groups := of_chars <$> caps y |}
  | None =>
      match suffix with
      | [] => None
      | _ :: suffix' => search r ignoreCase inputLength suffix'
      end
  end.

(** [exec] from [lastIndex]: 0 for a regex without the [g] flag. *)
Definition exec (r : regex) (ignoreCase : bool) (input : string) (lastIndex : nat) : option Match :=
  if (length (chars input) <? lastIndex)%nat then None
  else search r ignoreCase (length (chars input)) (drop lastIndex (chars input)).

(** [RegExp.prototype.test] of a regex without the [g] flag. *)
Definition test (r : regex) (ignoreCase : bool) (input : string) : bool :=
  bool_decide (is_Some (exec r ignoreCase input 0)).

End RegExp.

(** ** The patterns of [message.js] *)

Module Patterns.
Import Str RegExp.

(** The mention token of a user id, as the templates write it into a
    pattern text: [<@${id}>]. *)
Definition mention_token (id : string) : string := "<@" +:+ id +:+ ">".

(** The templates write the id into the pattern text unescaped: an id
    of pattern characters (the ids of the platform are letters and
    digits) is matched as it is, a dot in an id would match any
    character, and for an id with other syntax characters the pattern is
    left undefined ([None]). *)

(** [new RegExp (`^<@${id}>`, 'i')] *)
Definition direct_mention_pattern (id : string) : option regex :=
  ids ← spliced (chars id);
  Some (seq ([RBol; RChar "<"; RChar "@"] ++ ids ++ [RChar ">"])).

(** [new RegExp (`<@${id}>`, 'i')] *)
Definition mention_pattern (id : string) : option regex :=
  ids ← spliced (chars id);
  Some (seq ([RChar "<"; RChar "@"] ++ ids ++ [RChar ">"])).

(** [new RegExp] of the template [^<@${id}>:{0,1}] followed by the
    capturing group of [.*]; no flag. *)
Definition strip_pattern (id : string) : option regex :=
  ids ← spliced (chars id);
  Some (seq ([RBol; RChar "<"; RChar "@"] ++ ids ++
             [RChar ">"; RRepeat 0 (Some 1) (RChar ":"); RGroup 1 (RRepeat 0 None RDot)])).

(** [new RegExp ('<([^@^>]+)>', 'g')] *)
Definition links_pattern : regex :=
  seq [RChar "<"; RGroup 1 (RRepeat 1 None (RClass true ["@"; "^"; ">"]%char)); RChar ">"].

(** The characters the class of [links_pattern] accepts: all but [@],
    [^] and [>]. *)
Definition link_char (c : ascii) : bool :=
  negb (existsb (λ a, bool_decide (a = c)) ["@"; "^"; ">"]%char).

Definition link_free (s : string) : Prop :=
  Forall (λ c, link_char c = true) (chars s).

End Patterns.

(** ** Methods of [Message] *)

(** What [respond] hands to its callback. *)
Inductive CallbackCall :=
| CallbackAsIs (err : JsVal)       (* [callback (err)] *)
| CallbackError (message : JsVal)  (* [callback (Error (message))] *)
| CallbackData (data : JsVal).     (* [callback (null, data)] *)

(** [v.name] for the names read here ([error]), which no prototype of a
    primitive or of an array defines. *)
Definition get_prop (v : JsVal) (name : string) : Result JsVal :=
  match v with
  | JUndefined | JNull => Throw (TypeError ("Cannot read property " +:+ name))
  | JObj fields => Ok (default JUndefined (fields !! name))
  | _ => Ok JUndefined
  end.

(** [delete v.name] on a value that is not [null] or [undefined]. *)
Definition delete_prop (v : JsVal) (name : string) : JsVal :=
  match v with
  | JObj fields => JObj (delete name fields)
  | _ => v
  end.

(** The own enumerable properties [Object.assign] copies from a source. *)
Definition own_props (v : JsVal) : gmap string JsVal :=
  match v with
  | JObj fields => fields
  | JArr items => list_to_map (imap (λ i x, (pretty i, x)) items)
  | JStr s => list_to_map (imap (λ i c, (pretty i, JStr (String c ""))) (Str.chars s))
  | _ => ∅
  end.

(** [Object.assign (target, source)]: the source wins. *)
Definition assign (target : gmap string JsVal) (source : JsVal) : gmap string JsVal :=
  own_props source ∪ target.

Definition rateLimit : string := "You are sending too many requests. Please relax.".

Section Methods.
Import Str RegExp Patterns.

Context {Msg Res : Type}.
#[local] Abbreviation Message := (Message Msg Res).

Definition set_override (m : Message) (f : Msg → Res) : Message :=
  {| type := type m; body := body m; meta := meta m;
     conversation_id := conversation_id m;
     _slackapp := _slackapp m;
     override := Some f |}.

(** [attachOverrideRoute (fnKey, state)] *)
Definition attachOverrideRoute (m : Message) (fnKey : string) (state : JsVal)
    : Result Message :=
  match _slackapp m with
  | None => Throw (TypeError "Cannot read property getRoute")
  | Some app =>
    match getRoute app fnKey with
    | Some fn => Ok (set_override m (λ msg, fn msg state))
    | None => Ok m
    end
  end.

Definition hour : float := 60 * 60.

(** [route (fnKey, state, secondsToExpire)] at time [now]: the calls made
    on the conversation store, and [this]. [secondsToExpire] is a
    number, or omitted ([None]); the sum and the product are those of
    doubles. *)
Definition route (m : Message) (fnKey : string) (state : JsVal)
    (secondsToExpire : option float) (now : float) : Result (Message * list StoreCall) :=
  let state := if truthy state then state else JObj ∅ in
  let secondsToExpire :=
    match secondsToExpire with
    | Some s => if truthy_number s then s else hour
    | None => hour
    end in
  let key := conversation_id m in
  let expiration := (now + secondsToExpire * 1000)%float in
  match _slackapp m with
  | None => Throw (TypeError "Cannot read property convoStore")
  | Some _ =>
      Ok (m, [StoreSet key {| fnKey := fnKey; state := state; expiration := expiration |}])
  end.

(** [cancel ()] *)
Definition cancel (m : Message) : Result (list StoreCall) :=
  match _slackapp m with
  | None => Throw (TypeError "Cannot read property convoStore")
  | Some _ => Ok [StoreDel (conversation_id m)]
  end.

(** [_processInput (input)]; [random] is the value of [Math.random ()].
    The product is the product of doubles; an element at an index that
    is no index of the array ([NaN], an infinity, a negative number, or
    the length and beyond) is [undefined]. *)
Definition _processInput (input : JsVal) (random : float) : JsVal :=
  let input :=
    match input with
    | JArr items =>
        match floor (random * number_of_nat (length items)) with
        | Some i =>
            if (i <? 0)%Z then JUndefined
            else default JUndefined (items !! Z.to_nat i)
        | None => JUndefined
        end
    | _ => input
    end in
  match input with
  | JStr s => JObj {[ "text" := JStr s ]}
  | _ => input
  end.

(** [say (input, callback)]: the payload given to [chat.postMessage]. *)
Definition say (m : Message) (input : JsVal) (random : float) : gmap string JsVal :=
  let input := _processInput input random in
  assign (assign ∅ input)
    (JObj {[ "token" := of_field (js_or (bot_token (meta m)) (app_token (meta m)));
             "channel" := of_field (channel_id (meta m)) ]}).

(** The request [respond (responseUrl, input, callback)] issues. *)
Record Request := {
  uri : string;
  method : string;
  json : JsVal
}.

Definition respond (m : Message) (responseUrl : string) (input : JsVal) (random : float)
    : Request :=
  {| uri := responseUrl; method := "POST"; json := _processInput input random |}.

(** The function [respond] gives to [request], applied to [(err, res, body)]
    when the request completes. *)
Definition respond_done (err body : JsVal) : Result CallbackCall :=
  if truthy err then Ok (CallbackAsIs err)
  else
    match get_prop body "error" with
    | Throw e => Throw e
    | Ok error =>
      if truthy error then Ok (CallbackError error)
      else
        match body with
        | JStr s =>
            if includes s rateLimit then Ok (CallbackError (JStr "rate_limit"))
            else Ok (CallbackData (delete_prop body "ok"))
        | _ => Ok (CallbackData (delete_prop body "ok"))
        end
    end.

(** [isMessage ()], as a truth value. *)
Definition isMessage (m : Message) : bool :=
  String.eqb (type m) "event" &&
  match event (body m) with
  | Some e => String.eqb (ev_type e) "message"
  | None => false
  end.

(** [this.body.event.text] of a message event. *)
Definition text_of (m : Message) : option string :=
  e ← event (body m); ev_text e.

(** [isDirectMention ()]; [None] when the pattern is undefined. *)
Definition isDirectMention (m : Message) : option bool :=
  if isMessage m then
    re ← direct_mention_pattern (bot_user_id (meta m));
    Some (test re true (to_string (text_of m)))
  else Some false.

(** [isMention ()]; [None] when the pattern is undefined. *)
Definition isMention (m : Message) : option bool :=
  if isMessage m then
    re ← mention_pattern (bot_user_id (meta m));
    Some (test re true (to_string (text_of m)))
  else Some false.

(** The do-while loop of [linksMentioned]: [lastIndex] is the state of the
    global regex, [fuel] bounds the iterations. *)
Fixpoint links_loop (text : string) (fuel lastIndex : nat) (links : list string)
    : option (Result (list string)) :=
  match fuel with
  | O => None
  | S fuel' =>
    match exec links_pattern false text lastIndex with
    | None => Some (Ok links)
    | Some matcher =>
      match m_groups matcher !! 1 with
      | None => Some (Throw (TypeError "Cannot read property split"))
      | Some g =>
          links_loop text fuel' (m_end matcher)
            (links ++ [of_chars (before_first "|" (chars g))])
      end
    end
  end.

(** [linksMentioned ()]; [None] would be a loop that does not end. *)
Definition linksMentioned (m : Message) : option (Result (list string)) :=
  if isMessage m then
    let text := to_string (text_of m) in
    links_loop text (S (length (chars text))) 0 []
  else Some (Ok []).

(** [stripDirectMention ()]; [None] when the pattern is undefined. *)
Definition stripDirectMention (m : Message) : option (Result string) :=
  if isMessage m then
    match text_of m with
    | None => Some (Throw (TypeError "Cannot read property match"))
    | Some text =>
      re ← strip_pattern (bot_user_id (meta m));
      match exec re false text 0 with
      | Some mt =>
        match m_groups mt !! 1 with
        | Some g => Some (Ok (trim g))
        | None => Some (Throw (TypeError "Cannot read property trim"))
        end
      | None => Some (Ok text)
      end
    end
  else Some (Ok "").

End Methods.

(** ** The conversation store and the receiver *)

(** Modelled from the spec: the conversation store, an external key-value
    collaborator with [set], [get] and [delete] (section 6); registering
    overwrites, and the store keeps a continuation until it is
    overwritten or deleted. *)
Definition store_apply (σ : gmap string Continuation) (c : StoreCall)
    : gmap string Continuation :=
  match c with
  | StoreSet k v => <[k := v]> σ
  | StoreDel k => delete k σ
  end.

Definition store_run (σ : gmap string Continuation) (calls : list StoreCall)
    : gmap string Continuation :=
  foldl store_apply σ calls.

(** Modelled from the spec: the receiver's lookup of a pending
    continuation for an incoming message (section 2, control flow, and
    section 4.2): the continuation stored under the message's conversation
    key, unless it has expired, is attached with [attachOverrideRoute]. *)
Definition resolveOverride {Msg Res : Type} (σ : gmap string Continuation) (now : float)
    (m : Message Msg Res) : Result (Message Msg Res) :=
  match σ !! conversation_id m with
  | Some c =>
      if (expiration c <? now)%float then Ok m
      else attachOverrideRoute m (fnKey c) (state c)
  | None => Ok m
  end.

(** ** Vocabulary of the specification

    The notions the statements below compare the code with. They are
    written after the specification's words, not after the code. *)

Module Spec.
Import Str RegExp.

(** The actor of a meta: the user id if present, else the bot id. *)
Definition actor (meta : Meta) : option string :=
  match user_id meta with
  | Some u => Some u
  | None => bot_id meta
  end.

Definition alnum (c : ascii) : bool :=
  let n := nat_of_ascii c in
  (((48 <=? n) && (n <=? 57)) || ((65 <=? n) && (n <=? 90)) || ((97 <=? n) && (n <=? 122)))%nat.

(** An identifier of the platform: letters and digits, at least one. *)
Definition slack_id (s : string) : bool :=
  negb (String.eqb s "") && forallb alnum (chars s).

(** A well-formed meta: team and channel are identifiers, so are the
    user and bot ids that are present, and there is an actor. *)
Definition well_formed (meta : Meta) : bool :=
  from_option slack_id false (team_id meta) &&
  from_option slack_id false (channel_id meta) &&
  from_option slack_id true (user_id meta) &&
  from_option slack_id true (bot_id meta) &&
  bool_decide (is_Some (actor meta)).

(** A text in which the separator of the key cannot start. *)
Definition colon_free (s : string) : Prop := ":"%char ∉ chars s.

(** Two code units that differ at most by case. *)
Definition same_ignoring_case (a b : ascii) : Prop := to_upper a = to_upper b.

(** [text] begins with [token], case-insensitively: anchored at
    position zero. *)
Definition begins_with_ci (token text : string) : Prop :=
  ∃ p tail : list ascii, chars text = (p ++ tail)%list ∧ Forall2 same_ignoring_case (chars token) p.

(** [token] appears somewhere in [text], case-insensitively. *)
Definition appears_in_ci (token text : string) : Prop :=
  ∃ before p tail : list ascii,
    chars text = (before ++ p ++ tail)%list ∧ Forall2 same_ignoring_case (chars token) p.


End Spec.

(** ** Sample data *)

Module Examples.

Definition meta0 : Meta :=
  {| team_id := Some "T1"; channel_id := Some "C1"; user_id := Some "U1";
     bot_id := None; bot_token := Some "xoxb"; app_token := Some "xoxa";
     bot_user_id := "U123" |}.

(** A handler that answers with the state it is given. *)
Definition echo_state : Handler string JsVal := λ _ s, s.

Definition app0 : SlackApp string JsVal :=
  {| registry := {[ "ask" := echo_state ]} |}.

Definition msg0 : Message string JsVal :=
  attachSlackApp (new_Message "event" {| event := None |} meta0) app0.

(** What the override of a resolved message answers to an event. *)
Definition call_override {Msg Res : Type} (r : Result (Message Msg Res)) (e : Msg)
    : option Res :=
  match r with
  | Ok m => f ← override m; Some (f e)
  | Throw _ => None
  end.

(** The line feed. *)
Definition LF : string := String "010" "".

(** A message event with the given text, addressed to a bot with the
    given user id. *)
Definition text_message {Msg Res : Type} (text bot : string) : Message Msg Res :=
  new_Message "event"
    {| event := Some {| ev_type := "message"; ev_text := Some text |} |}
    {| team_id := Some "T1"; channel_id := Some "C1"; user_id := Some "U1";
       bot_id := None; bot_token := Some "xoxb"; app_token := Some "xoxa";
       bot_user_id := bot |}.

End Examples.
Import Examples.

(** ** The other methods of [Message] *)

Module Mentions.
Import Str RegExp.

(** The characters from [lo] to [hi], as a class range [lo-hi] lists
    them. *)
Definition char_range (lo hi : ascii) : list ascii :=
  ascii_of_nat <$> List.seq (nat_of_ascii lo) (nat_of_ascii hi + 1 - nat_of_ascii lo).

(** The class [[A-Za-z0-9]]. *)
Definition alnum_class : list ascii :=
  char_range "A" "Z" ++ char_range "a" "z" ++ char_range "0" "9".

(** [new RegExp ('<@(U[A-Za-z0-9]+)>', 'g')] *)
Definition users_pattern : regex :=
  seq [RChar "<"; RChar "@";
       RGroup 1 (seq [RChar "U"; RRepeat 1 None (RClass false alnum_class)]);
       RChar ">"].

(** [new RegExp ('<#(C[A-Za-z0-9]+)>', 'g')] *)
Definition channels_pattern : regex :=
  seq [RChar "<"; RChar "#";
       RGroup 1 (seq [RChar "C"; RRepeat 1 None (RClass false alnum_class)]);
       RChar ">"].

(** The two patterns above, by the sign and the letter of their kind. *)
Definition id_pattern (sigil letter : ascii) : regex :=
  seq [RChar "<"; RChar sigil;
       RGroup 1 (seq [RChar letter; RRepeat 1 None (RClass false alnum_class)]);
       RChar ">"].

(** [new RegExp] of the pattern text [<!subteam\^(S[A-Za-z0-9]+)[^>]+>]
    with the flag [g]; the escaped [^] is a pattern character. *)
Definition subteams_pattern : regex :=
  seq ((RChar <$> chars "<!subteam^") ++
       [RGroup 1 (seq [RChar "S"; RRepeat 1 None (RClass false alnum_class)]);
        RRepeat 1 None (RClass true [">"%char]);
        RChar ">"]).

(** [new RegExp ('<!everyone>', 'g')] *)
Definition everyone_pattern : regex :=
  seq (RChar <$> chars "<!everyone>").

(** [new RegExp] of the pattern text [<!(channel)[^>]*>] with the flag
    [g]. *)
Definition channel_pattern : regex :=
  seq ((RChar <$> chars "<!") ++
       [RGroup 1 (seq (RChar <$> chars "channel"));
        RRepeat 0 None (RClass true [">"%char]);
        RChar ">"]).

(** [new RegExp] of the pattern text [<!(here)[^>]*>] with the flag
    [g]. *)
Definition here_pattern : regex :=
  seq ((RChar <$> chars "<!") ++
       [RGroup 1 (seq (RChar <$> chars "here"));
        RRepeat 0 None (RClass true [">"%char]);
        RChar ">"]).

(** The two patterns above, by the word of the marker. *)
Definition marker_pattern (word : string) : regex :=
  seq ((RChar <$> chars "<!") ++
       [RGroup 1 (seq (RChar <$> chars word));
        RRepeat 0 None (RClass true [">"%char]);
        RChar ">"]).

End Mentions.

(** ** Properties of matchers *)

Module Forward.
Import RegExp.

(** A matcher that hands its continuation a state further on in the
    input. *)
Definition forward (m : Cont → MatchState → option MatchState) : Prop :=
  ∀ k x z, m k x = Some z → ∃ y, k y = Some z ∧ rest y `suffix_of` rest x.

(** A pattern whose every match holds at least one character. *)
Definition advances (re : regex) : Prop :=
  ∀ n x z, rmatch false n re Some x = Some z → (length (rest z) < length (rest x))%nat.

End Forward.

(** ** Texts that hold mentions *)

Module Render.
Import Str RegExp.

(** An id as the patterns of [usersMentioned] and [channelsMentioned]
    read it: the letter of its kind, then letters and digits, at least
    one. *)
Definition id_of_kind (letter : ascii) (id : string) : bool :=
  match chars id with
  | c :: d :: tl => bool_decide (c = letter) && forallb Spec.alnum (d :: tl)
  | _ => false
  end.

(** A text without an opening bracket. *)
Definition bracket_free (s : string) : bool :=
  forallb (λ c, negb (bool_decide (c = "<"%char))) (chars s).

(** The reference to an id in a message text: [<@id>] for a user,
    [<#id>] for a channel. *)
Definition reference (sigil : ascii) (id : string) : string :=
  String "<" (String sigil id) +:+ ">".

(** A text that holds the references [ids], each after a stretch of
    other text, and ends with [tail]. *)
Fixpoint with_references (sigil : ascii) (parts : list (string * string)) (tail : string)
    : string :=
  match parts with
  | [] => tail
  | (before, id) :: parts' =>
      before +:+ reference sigil id +:+ with_references sigil parts' tail
  end.

(** [needle] occurs in [text]. *)
Definition occurs_in (needle text : list ascii) : Prop :=
  ∃ before after, text = before ++ needle ++ after.

(** A broadcast marker is open in [text]: [<!word] occurs and a closing
    bracket comes after it. *)
Definition marker_in (word : string) (text : list ascii) : Prop :=
  ∃ before inside after,
    text = before ++ chars ("<!" +:+ word) ++ inside ++ ">"%char :: after.

(** A text without a closing bracket. *)
Definition closing_free (s : string) : bool :=
  forallb (λ c, negb (bool_decide (c = ">"%char))) (chars s).

(** The reference to a subteam with its label, [<!subteam^id|label>],
    and the reference without label, [<!subteam^id>]. *)
Definition subteam_reference (id label : string) : string :=
  "<!subteam^" +:+ id +:+ "|" +:+ label +:+ ">".

Definition bare_subteam_reference (id : string) : string :=
  "<!subteam^" +:+ id +:+ ">".

(** A text that holds the subteam references [parts], each after a
    stretch of other text, and ends with [tail]. *)
Fixpoint with_subteams (parts : list (string * (string * string))) (tail : string)
    : string :=
  match parts with
  | [] => tail
  | (before, (id, label)) :: parts' =>
      before +:+ subteam_reference id label +:+ with_subteams parts' tail
  end.

(** A reference to a link: [<url>], or [<url|label>] with a label. *)
Definition link_reference (url : string) (label : option string) : string :=
  "<" +:+ url +:+ from_option (λ l, "|" +:+ l) "" label +:+ ">".

(** A text that holds the link references [parts], each after a stretch
    of other text, and ends with [tail]. *)
Fixpoint with_links (parts : list (string * (string * option string))) (tail : string)
    : string :=
  match parts with
  | [] => tail
  | (before, (url, label)) :: parts' =>
      before +:+ link_reference url label +:+ with_links parts' tail
  end.

(** A url as the pattern of [linksMentioned] reads it whole: not empty,
    and without [@], [^], [>] and the bar that starts a label. *)
Definition url_like (s : string) : bool :=
  negb (String.eqb s "") &&
  forallb (λ c, Patterns.link_char c && negb (bool_decide (c = "|"%char))) (chars s).

(** A label, if there is one, without [@], [^] and [>]. *)
Definition label_like (label : option string) : bool :=
  from_option (λ l, forallb Patterns.link_char (chars l)) true label.

End Render.

(** The results of the methods below: [None] when a pattern is
    undefined or a loop does not end, [Some (Throw _)] for a thrown
    exception. *)
Definition Outcome (A : Type) : Type := option (Result A).

Definition outcome_bind {A B : Type} (x : Outcome A) (f : A → Outcome B) : Outcome B :=
  match x with
  | Some (Ok a) => f a
  | Some (Throw e) => Some (Throw e)
  | None => None
  end.

(** The outcome of a method that does not throw. *)
Definition outcome_of {A : Type} (x : option A) : Outcome A :=
  match x with
  | Some a => Some (Ok a)
  | None => None
  end.

(** One line [found = found || (named && test ())] of the loop of
    [isAnyOf]: the test is made only when nothing was found before and
    the filter has the name. *)
Definition found_or (found named : bool) (test : Outcome bool) : Outcome bool :=
  if found then Some (Ok true)
  else if named then test
  else Some (Ok false).

Section MoreMethods.
Import Str RegExp Patterns Mentions.

Context {Msg Res : Type}.
#[local] Abbreviation Message := (Message Msg Res).

(** [isDirectMessage ()], as a truth value: [channel_id[0]] of a missing
    channel id throws. *)
Definition isDirectMessage (m : Message) : Result bool :=
  if isMessage m then
    match channel_id (meta m) with
    | None => Throw (TypeError "Cannot read property 0")
    | Some c =>
        Ok match chars c with
           | d :: _ => bool_decide (d = "D"%char)
           | [] => false
           end
    end
  else Ok false.

(** [isAmbient ()] *)
Definition isAmbient (m : Message) : Outcome bool :=
  if isMessage m then
    outcome_bind (outcome_of (isMention m)) (λ mention,
      if mention then Some (Ok false)
      else outcome_bind (Some (isDirectMessage m)) (λ direct, Some (Ok (negb direct))))
  else Some (Ok false).

(** The loop of [isAnyOf] from the filter at hand, [name], on. *)
Fixpoint isAnyOf_from (m : Message) (messageFilters : list string) (found : bool)
    : Outcome bool :=
  match messageFilters with
  | [] => Some (Ok found)
  | name :: rest =>
    outcome_bind (found_or found (String.eqb name "direct_message")
                    (Some (isDirectMessage m))) (λ found,
    outcome_bind (found_or found (String.eqb name "direct_mention")
                    (outcome_of (isDirectMention m))) (λ found,
    outcome_bind (found_or found (String.eqb name "ambient")
                    (isAmbient m)) (λ found,
    outcome_bind (found_or found (String.eqb name "mention")
                    (outcome_of (isMention m))) (λ found,
    isAnyOf_from m rest found))))
  end.

(** [isAnyOf (messageFilters)], as a truth value. *)
Definition isAnyOf (m : Message) (messageFilters : list string) : Outcome bool :=
  isAnyOf_from m messageFilters false.

(** The do-while loop of [_regexMentions]: [lastIndex] is the state of
    the global regex, [fuel] bounds the iterations; [matcher[1]] is
    [undefined] ([None]) when the pattern has no group. *)
Fixpoint regexMentions_loop (re : regex) (text : string) (fuel lastIndex : nat)
    (matches : list (option string)) : option (list (option string)) :=
  match fuel with
  | O => None
  | S fuel' =>
    match exec re false text lastIndex with
    | None => Some matches
    | Some matcher =>
        regexMentions_loop re text fuel' (m_end matcher)
          (matches ++ [m_groups matcher !! 1])
    end
  end.

(** [_regexMentions (re)]; [None] would be a loop that does not end. *)
Definition _regexMentions (m : Message) (re : regex) : option (list (option string)) :=
  if isMessage m then
    let text := to_string (text_of m) in
    regexMentions_loop re text (S (length (chars text))) 0 []
  else Some [].

(** [usersMentioned ()] *)
Definition usersMentioned (m : Message) : option (list (option string)) :=
  _regexMentions m users_pattern.

(** [channelsMentioned ()] *)
Definition channelsMentioned (m : Message) : option (list (option string)) :=
  _regexMentions m channels_pattern.

(** [subteamGroupsMentioned ()] *)
Definition subteamGroupsMentioned (m : Message) : option (list (option string)) :=
  _regexMentions m subteams_pattern.

(** [everyoneMentioned ()] *)
Definition everyoneMentioned (m : Message) : option bool :=
  matches ← _regexMentions m everyone_pattern; Some (0 <? length matches)%nat.

(** [channelMentioned ()] *)
Definition channelMentioned (m : Message) : option bool :=
  matches ← _regexMentions m channel_pattern; Some (0 <? length matches)%nat.

(** [hereMentioned ()] *)
Definition hereMentioned (m : Message) : option bool :=
  matches ← _regexMentions m here_pattern; Some (0 <? length matches)%nat.

End MoreMethods.

(** * Properties *)

(** ** The conversation key *)

Section ConversationKey.
Import Str Spec.

Lemma alnum_not_colon c : alnum c = true → c ≠ ":"%char.
Proof. intros H ->. discriminate H. Qed.

Lemma slack_id_colon_free s : slack_id s = true → colon_free s.
Proof.
  unfold slack_id, colon_free. intros [_ H]%andb_prop.
  rewrite forallb_forall in H. intros Hin.
  apply (alnum_not_colon ":"); [|done].
  apply H. by apply list_elem_of_In.
Qed.

Lemma slack_id_nonempty s : slack_id s = true → String.eqb s "" = false.
Proof. unfold slack_id. intros [H _]%andb_prop. by apply negb_true_iff. Qed.

(** A colon-free text followed by the separator determines both the text
    and what follows the separator. *)
Lemma separator_split (a a' r r' : string) :
  colon_free a → colon_free a' →
  a +:+ "::" +:+ r = a' +:+ "::" +:+ r' → a = a' ∧ r = r'.
Proof.
  revert a'. induction a as [|c a IH]; intros [|c' a'] Ha Ha'; simpl; intros E.
  - by simplify_eq.
  - exfalso. apply Ha'. injection E as <- _. simpl. left.
  - exfalso. apply Ha. injection E as -> _. simpl. left.
  - injection E as -> E.
    destruct (IH a') as [-> ->]; [| |done|done].
    + intros Hin. apply Ha. simpl. by right.
    + intros Hin. apply Ha'. simpl. by right.
Qed.

Lemma js_or_actor meta :
  well_formed meta = true → js_or (user_id meta) (bot_id meta) = actor meta.
Proof.
  unfold well_formed, actor, js_or. intros H.
  destruct (user_id meta) as [u|]; [|done].
  repeat (apply andb_prop in H as [H ?]).
  simpl in *. by rewrite slack_id_nonempty.
Qed.

Lemma well_formed_ids meta :
  well_formed meta = true →
  ∃ t c a, team_id meta = Some t ∧ channel_id meta = Some c ∧ actor meta = Some a ∧
           colon_free t ∧ colon_free c.
Proof.
  unfold well_formed. intros H.
  repeat (apply andb_prop in H as [H ?]).
  destruct (team_id meta) as [t|]; [|done].
  destruct (channel_id meta) as [c|]; [|done].
  match goal with Ha : bool_decide _ = true |- _ => apply bool_decide_eq_true in Ha as [a Ha] end.
  exists t, c, a. simpl in *. repeat split; auto using slack_id_colon_free.
Qed.

Context {Msg Res : Type}.

(** The key is injective as soon as the separator cannot start inside
    the team and channel ids. *)
Lemma conversation_key_colon_free
    (type1 type2 : string) (body1 body2 : Body) (meta1 meta2 : Meta) t1 c1 a1 t2 c2 a2 :
  team_id meta1 = Some t1 → channel_id meta1 = Some c1 →
  js_or (user_id meta1) (bot_id meta1) = Some a1 →
  team_id meta2 = Some t2 → channel_id meta2 = Some c2 →
  js_or (user_id meta2) (bot_id meta2) = Some a2 →
  colon_free t1 → colon_free c1 → colon_free t2 → colon_free c2 →
  conversation_id (new_Message (Msg:=Msg) (Res:=Res) type1 body1 meta1) =
  conversation_id (new_Message (Msg:=Msg) (Res:=Res) type2 body2 meta2) →
  t1 = t2 ∧ c1 = c2 ∧ a1 = a2.
Proof.
  unfold new_Message. simpl. intros -> -> -> -> -> -> Ht1 Hc1 Ht2 Hc2 E. simpl in E.
  apply separator_split in E as [-> E]; [|done|done].
  apply separator_split in E as [-> ->]; done.
Qed.

(** C4. The conversation key depends on the meta only through team id,
    channel id and actor id: metas that agree on the three get the same
    key, whatever else the messages hold. On well-formed metas, whose ids
    are identifiers of the platform (letters and digits), the actor the
    code uses is the one of the specification (the user id if present,
    else the bot id) and the key is injective: two metas that differ in
    team, channel or actor have different keys. *)
Theorem conversation_key_injective
    (type1 type2 : string) (body1 body2 : Body) (meta1 meta2 : Meta) :
  let key1 := conversation_id (new_Message (Msg:=Msg) (Res:=Res) type1 body1 meta1) in
  let key2 := conversation_id (new_Message (Msg:=Msg) (Res:=Res) type2 body2 meta2) in
  (team_id meta1 = team_id meta2 → channel_id meta1 = channel_id meta2 →
   js_or (user_id meta1) (bot_id meta1) = js_or (user_id meta2) (bot_id meta2) →
   key1 = key2) ∧
  (well_formed meta1 = true → well_formed meta2 = true →
   js_or (user_id meta1) (bot_id meta1) = actor meta1 ∧
   js_or (user_id meta2) (bot_id meta2) = actor meta2 ∧
   ((team_id meta1, channel_id meta1, actor meta1) ≠
    (team_id meta2, channel_id meta2, actor meta2) → key1 ≠ key2)).
Proof.
  intros key1 key2. subst key1 key2. split.
  - unfold new_Message. simpl. by intros -> -> ->.
  - intros W1 W2.
    pose proof (js_or_actor _ W1) as A1. pose proof (js_or_actor _ W2) as A2.
    split; [done|]. split; [done|].
    destruct (well_formed_ids _ W1) as (t1 & c1 & a1 & Et1 & Ec1 & Ea1 & Ht1 & Hc1).
    destruct (well_formed_ids _ W2) as (t2 & c2 & a2 & Et2 & Ec2 & Ea2 & Ht2 & Hc2).
    intros Hne E. apply Hne.
    destruct (conversation_key_colon_free type1 type2 body1 body2 meta1 meta2
                t1 c1 a1 t2 c2 a2) as (-> & -> & ->); try done; try congruence.
Qed.

End ConversationKey.

(** A user and a bot in the same channel have different keys. *)
Lemma conversation_key_injective_witness :
  let meta1 := {| team_id := Some "T1"; channel_id := Some "C1"; user_id := Some "U1";
                  bot_id := None; bot_token := None; app_token := None;
                  bot_user_id := "U123" |} in
  let meta2 := {| team_id := Some "T1"; channel_id := Some "C1"; user_id := None;
                  bot_id := Some "B7"; bot_token := None; app_token := None;
                  bot_user_id := "U123" |} in
  Spec.well_formed meta1 = true ∧ Spec.well_formed meta2 = true ∧
  conversation_id (new_Message (Msg:=unit) (Res:=unit) "event" {| event := None |} meta1) ≠
  conversation_id (new_Message (Msg:=unit) (Res:=unit) "command" {| event := None |} meta2).
Proof.
  intros meta1 meta2.
  split; [reflexivity|]. split; [reflexivity|].
  apply (conversation_key_injective (Msg:=unit) (Res:=unit)
           "event" "command" {| event := None |} {| event := None |} meta1 meta2);
    [reflexivity | reflexivity | discriminate].
Defined.

(** Outside the well-formed metas the separator can occur inside an id,
    and two different triples can share a key. *)
Remark conversation_key_collision :
  let meta1 := {| team_id := Some "T"; channel_id := Some "C::X"; user_id := Some "U";
                  bot_id := None; bot_token := None; app_token := None;
                  bot_user_id := "U123" |} in
  let meta2 := {| team_id := Some "T::C"; channel_id := Some "X"; user_id := Some "U";
                  bot_id := None; bot_token := None; app_token := None;
                  bot_user_id := "U123" |} in
  team_id meta1 ≠ team_id meta2 ∧
  conversation_id (new_Message (Msg:=unit) (Res:=unit) "event" {| event := None |} meta1) =
  conversation_id (new_Message (Msg:=unit) (Res:=unit) "event" {| event := None |} meta2).
Proof. split; [discriminate | reflexivity]. Qed.

(** ** Continuations *)

Section Routing.

Context {Msg Res : Type}.
Implicit Types (m : Message Msg Res) (app : SlackApp Msg Res) (fn : Handler Msg Res).
Implicit Types (σ : gmap string Continuation).

Lemma store_run_set σ key record :
  store_run σ [StoreSet key record] = <[key := record]> σ.
Proof. reflexivity. Qed.

Lemma route_attached m app key s secs now :
  _slackapp m = Some app →
  route m key s secs now =
    Ok (m, [StoreSet (conversation_id m)
              {| fnKey := key;
                 state := if truthy s then s else JObj ∅;
                 expiration :=
                   (now + match secs with
                          | Some n => if truthy_number n then n else hour
                          | None => hour
                          end * 1000)%float |}]).
Proof. intros H. unfold route. by rewrite H. Qed.

(** [x < y] and [y < x] exclude each other, for doubles as for any
    order. *)
Lemma SFcompare_antisym x y :
  SFcompare y x = option_map CompOpp (SFcompare x y).
Proof.
  destruct x as [[]|[]| |[] mx ex], y as [[]|[]| |[] my ey]; try reflexivity; cbn;
    rewrite (Z.compare_antisym ey ex); destruct (ey ?= ex)%Z; cbn; try reflexivity;
    change (PosDef.Pos.compare_cont Eq ?a ?b) with (Pos.compare a b);
    rewrite (Pos.compare_antisym mx my); by destruct (mx ?= my)%positive.
Qed.

Lemma ltb_asym (x y : float) : (x <? y)%float = true → (y <? x)%float = false.
Proof.
  rewrite !ltb_spec. unfold SFltb. rewrite (SFcompare_antisym (Prim2SF x) (Prim2SF y)).
  by destruct (SFcompare (Prim2SF x) (Prim2SF y)) as [[]|].
Qed.

(** C2, as amended. A call of [route] on a message with its application
    attached makes
    exactly one call on the conversation store: a [set] under the
    message's conversation key of a record with the given handler key,
    the state (the given one, or a new empty object when it is omitted or
    falsy) and the expiration [now + secondsToExpire * 1000], the sum
    and the product being those of doubles, with 3600 seconds when
    [secondsToExpire] is omitted or falsy: zero, minus zero or [NaN].
    Whatever the store held under that key is overwritten, and no other
    key changes. *)
Theorem route_writes_once m app key s secs now σ :
  _slackapp m = Some app →
  ∃ record,
    route m key s secs now = Ok (m, [StoreSet (conversation_id m) record]) ∧
    fnKey record = key ∧
    state record = (if truthy s then s else JObj ∅) ∧
    (truthy s = true → state record = s) ∧
    (secs = None ∨ secs = Some 0%float ∨ secs = Some (-0)%float ∨ secs = Some nan →
     expiration record = (now + 3600 * 1000)%float) ∧
    (∀ n, secs = Some n → truthy_number n = false →
          expiration record = (now + 3600 * 1000)%float) ∧
    (∀ n, secs = Some n → truthy_number n = true →
          expiration record = (now + n * 1000)%float) ∧
    store_run σ [StoreSet (conversation_id m) record] !! conversation_id m = Some record ∧
    (∀ k, k ≠ conversation_id m →
          store_run σ [StoreSet (conversation_id m) record] !! k = σ !! k).
Proof.
  intros Happ. eexists. split; [by apply (route_attached _ app)|]. simpl.
  split; [done|]. split; [done|].
  split; [by intros ->|].
  split; [by intros [-> | [-> | [-> | ->]]]|].
  split; [by intros n -> ->|].
  split; [by intros n -> ->|].
  unfold store_run. simpl. split.
  - apply lookup_insert_eq.
  - intros k Hk. by apply lookup_insert_ne.
Qed.

(** C3. When the registry has no handler under the key, attaching the
    continuation does nothing and reports nothing: the call returns the
    message as it was, so no override has been attached. *)
Theorem stale_continuation_noop m app key st :
  _slackapp m = Some app →
  registry app !! key = None →
  ∃ m', attachOverrideRoute m key st = Ok m' ∧ m' = m ∧ override m' = override m.
Proof.
  intros Happ Hreg. exists m.
  unfold attachOverrideRoute, getRoute. by rewrite Happ, Hreg.
Qed.

(** C1, as amended. A continuation comes back as registered: after
    [route] on a message of the conversation, and before the stored
    expiration, resolving a later message of the same conversation
    attaches a callable that hands each event to the handler registered
    under the key, with the very state given to [route] when that state
    is truthy, and with a new empty object when it is omitted or falsy,
    whatever falsy value it is. *)
Theorem continuation_round_trip m1 m2 app key fn s secs now later σ :
  _slackapp m1 = Some app →
  _slackapp m2 = Some app →
  conversation_id m2 = conversation_id m1 →
  registry app !! key = Some fn →
  ∃ calls record,
    route m1 key s secs now = Ok (m1, calls) ∧
    store_run σ calls !! conversation_id m1 = Some record ∧
    ((later <? expiration record)%float = true →
     ∃ f, resolveOverride (store_run σ calls) later m2 = Ok (set_override m2 f) ∧
          (∀ e, f e = fn e (if truthy s then s else JObj ∅)) ∧
          (truthy s = true → ∀ e, f e = fn e s) ∧
          (truthy s = false → ∀ e, f e = fn e (JObj ∅))).
Proof.
  intros H1 H2 Hk Hreg.
  eexists _, _. split; [by apply (route_attached _ app)|].
  rewrite store_run_set. split; [apply lookup_insert_eq|].
  cbn [expiration]. intros Hlive%ltb_asym.
  unfold resolveOverride. rewrite Hk, lookup_insert_eq. cbn [expiration fnKey state].
  rewrite Hlive.
  unfold attachOverrideRoute, getRoute. rewrite H2, Hreg.
  eexists. split; [reflexivity|]. split; [done|].
  split; [by intros ->|by intros ->].
Qed.

End Routing.

(** The three statements on the sample message [msg0]. *)
Lemma route_writes_once_witness :
  ∃ record,
    route msg0 "ask" (JNum 7) (Some 60%float) 1000 = Ok (msg0, [StoreSet "T1::C1::U1" record]) ∧
    expiration record = 61000%float.
Proof.
  destruct (route_writes_once msg0 app0 "ask" (JNum 7) (Some 60%float) 1000 ∅ eq_refl)
    as (record & Hr & _ & _ & _ & _ & _ & He & _).
  exists record. split; [exact Hr|].
  exact (He 60%float eq_refl eq_refl).
Defined.

Lemma stale_continuation_noop_witness :
  ∃ m', attachOverrideRoute msg0 "gone" (JNum 7) = Ok m' ∧ m' = msg0 ∧ override m' = None.
Proof.
  exact (stale_continuation_noop msg0 app0 "gone" (JNum 7) eq_refl eq_refl).
Defined.

Lemma continuation_round_trip_witness :
  ∃ calls f,
    route msg0 "ask" (JNum 7) None 1000 = Ok (msg0, calls) ∧
    resolveOverride (store_run ∅ calls) 2000 msg0 = Ok (set_override msg0 f) ∧
    f "next" = JNum 7.
Proof.
  destruct (continuation_round_trip msg0 msg0 app0 "ask" echo_state (JNum 7) None 1000 2000 ∅
              eq_refl eq_refl eq_refl eq_refl)
    as (calls & record & Hr & Hl & Hres).
  assert (Hlive : (2000 <? expiration record)%float = true).
  { rewrite (route_attached msg0 app0 _ _ _ _ eq_refl) in Hr.
    injection Hr as <-. rewrite store_run_set, lookup_insert_eq in Hl.
    injection Hl as <-. reflexivity. }
  destruct (Hres Hlive) as (f & Hf & Hcall & _).
  exists calls, f. split; [exact Hr|]. split; [exact Hf|]. apply Hcall.
Defined.

(** C2 as stated fails on a falsy state: called with the state [0],
    [route] writes a record whose state is a new empty object. *)
Lemma route_writes_once_falsy_state :
  route msg0 "ask" (JNum 0) None 1000 =
    Ok (msg0, [StoreSet "T1::C1::U1"
                 {| fnKey := "ask"; state := JObj ∅; expiration := 3601000 |}]) ∧
  JObj ∅ ≠ JNum 0.
Proof. split; [reflexivity | discriminate]. Qed.

(** The expiration is a sum of doubles: a time to live of
    [9007199254740991] seconds at the time [1700000000001] stores
    [9007200954740990976], the nearest double, and not the sum of the
    integers, [9007200954740991001]. *)
Example route_expiration_rounds :
  route msg0 "ask" (JNum 1) (Some 9007199254740991%float) 1700000000001 =
    Ok (msg0, [StoreSet "T1::C1::U1"
                 {| fnKey := "ask"; state := JNum 1;
                    expiration := 9007200954740990976 |}]) ∧
  (9007200954740990976 <? 9007200954740991001)%Z = true.
Proof. split; reflexivity. Qed.

(** C1 as stated fails on a falsy state: registered with the state [0],
    the handler is called with a new empty object. *)
Lemma continuation_round_trip_falsy_state :
  ∃ calls,
    route msg0 "ask" (JNum 0) None 1000 = Ok (msg0, calls) ∧
    call_override (resolveOverride (store_run ∅ calls) 2000 msg0) "next" = Some (JObj ∅) ∧
    echo_state "next" (JNum 0) = JNum 0 ∧
    JObj ∅ ≠ JNum 0.
Proof.
  eexists. split; [reflexivity|]. split; [reflexivity|].
  split; [reflexivity | discriminate].
Qed.

(** ** The matcher on runs of pattern characters *)

Section Literals.
Import Str RegExp Spec.

Variable ignoreCase : bool.

Lemma state_eta (x : MatchState) : {| rest := rest x; caps := caps x |} = x.
Proof. by destruct x. Qed.

(** A run of pattern characters consumes a text that equals it, up to
    the canonicalization of the flag, and nothing else. *)
Lemma rmatch_chars_then n l rs k x :
  rmatch ignoreCase n (seq ((RChar <$> l) ++ rs)) k x =
    match strip_lits ignoreCase l (rest x) with
    | Some tl => rmatch ignoreCase n (seq rs) k {| rest := tl; caps := caps x |}
    | None => None
    end.
Proof.
  revert x. induction l as [|a l IH]; intros x; simpl.
  - by rewrite state_eta.
  - unfold step. destruct (rest x) as [|d tl]; [done|].
    destruct (same_char ignoreCase a d); [|done].
    by rewrite IH.
Qed.

Lemma rmatch_lits n l k x :
  rmatch ignoreCase n (lits l) k x =
    match strip_lits ignoreCase l (rest x) with
    | Some tl => k {| rest := tl; caps := caps x |}
    | None => None
    end.
Proof.
  unfold lits. rewrite <- (app_nil_r (RChar <$> l)), rmatch_chars_then.
  by destruct (strip_lits ignoreCase l (rest x)).
Qed.

Lemma strip_lits_Some l input tl :
  strip_lits ignoreCase l input = Some tl ↔
  ∃ p, input = p ++ tl ∧ Forall2 (λ a d, same_char ignoreCase a d = true) l p.
Proof.
  revert input. induction l as [|a l IH]; intros input; simpl.
  - split.
    + intros [= ->]. exists []. by split; [|constructor].
    + intros (p & -> & Hp). by inversion Hp.
  - destruct input as [|d input].
    + split; [done|]. intros (p & Hp & H2). inversion H2; subst. done.
    + destruct (same_char ignoreCase a d) eqn:E.
      * rewrite IH. split.
        -- intros (p & -> & Hp). exists (d :: p). split; [done|]. by constructor.
        -- intros (p & Hp & H2). inversion H2; subst. simplify_eq/=. eauto.
      * split; [done|]. intros (p & Hp & H2). inversion H2; subst.
        simplify_eq/=. congruence.
Qed.

(** An anchored pattern matches at the start of the input only. *)
Lemma search_anchored_later r n suffix :
  length suffix < n → search (RSeq RBol r) ignoreCase n suffix = None.
Proof.
  induction suffix as [|c suffix IH]; intros Hlen; simpl in *.
  - rewrite bool_decide_eq_false_2 by lia. done.
  - rewrite bool_decide_eq_false_2 by lia. apply IH. lia.
Qed.

Lemma search_anchored_lits l input :
  is_Some (search (RSeq RBol (lits l)) ignoreCase (length input) input) ↔
  is_Some (strip_lits ignoreCase l input).
Proof.
  destruct input as [|c input]; simpl.
  - rewrite rmatch_lits. simpl. destruct (strip_lits ignoreCase l []); simpl.
    + split; eauto.
    + split; by intros [? ?].
  - rewrite bool_decide_eq_true_2 by done.
    rewrite rmatch_lits. simpl.
    destruct (strip_lits ignoreCase l (c :: input)); simpl.
    + split; eauto.
    + rewrite search_anchored_later by (simpl; lia). done.
Qed.

(** An unanchored run of pattern characters is found at the first
    position where the text continues with it. *)
Lemma search_lits l n suffix :
  is_Some (search (lits l) ignoreCase n suffix) ↔
  ∃ i, is_Some (strip_lits ignoreCase l (drop i suffix)).
Proof.
  induction suffix as [|c suffix IH]; simpl; rewrite rmatch_lits; simpl.
  - destruct (strip_lits ignoreCase l []) eqn:E.
    + split; [|eauto]. intros _. exists 0. by rewrite drop_0, E.
    + split; [by intros [? ?]|]. intros [i Hi]. by rewrite drop_nil, E in Hi.
  - destruct (strip_lits ignoreCase l (c :: suffix)) eqn:E.
    + split; [|eauto]. intros _. exists 0. by rewrite drop_0, E.
    + rewrite IH. split.
      * intros [i Hi]. by exists (S i).
      * intros [[|i] Hi]; [by rewrite drop_0, E in Hi|]. by exists i.
Qed.

End Literals.

(** ** Mentions of the bot *)

Section Classification.
Import Str RegExp Patterns Spec.

Lemma same_char_ci a d : same_char true a d = true ↔ same_ignoring_case a d.
Proof. unfold same_char, canonicalize. apply bool_decide_eq_true. Qed.

Lemma strip_lits_begins token text :
  is_Some (strip_lits true (chars token) (chars text)) ↔ begins_with_ci token text.
Proof.
  unfold begins_with_ci. split.
  - intros [tl (p & Hp & H2)%strip_lits_Some]. exists p, tl. split; [done|].
    eapply Forall2_impl; [exact H2|]. intros a d. apply same_char_ci.
  - intros (p & tl & Hp & H2). exists tl. apply strip_lits_Some. exists p.
    split; [done|]. eapply Forall2_impl; [exact H2|]. intros a d. apply same_char_ci.
Qed.

Lemma strip_lits_appears token text :
  (∃ i, is_Some (strip_lits true (chars token) (drop i (chars text)))) ↔
  appears_in_ci token text.
Proof.
  unfold appears_in_ci. split.
  - intros [i [tl (p & Hp & H2)%strip_lits_Some]].
    exists (take i (chars text)), p, tl. split.
    + by rewrite <- Hp, take_drop.
    + eapply Forall2_impl; [exact H2|]. intros a d. apply same_char_ci.
  - intros (before & p & tl & Hp & H2). exists (length before), tl.
    apply strip_lits_Some. exists p. split.
    + by rewrite Hp, drop_app_length.
    + eapply Forall2_impl; [exact H2|]. intros a d. apply same_char_ci.
Qed.

Lemma exec_start r ic input :
  exec r ic input 0 = search r ic (length (chars input)) (chars input).
Proof. unfold exec. by rewrite drop_0. Qed.

Lemma test_true r ic input :
  test r ic input = true ↔ is_Some (search r ic (length (chars input)) (chars input)).
Proof. unfold test. by rewrite bool_decide_eq_true, exec_start. Qed.

Lemma chars_app (a b : string) : chars (a +:+ b) = chars a ++ chars b.
Proof. induction a as [|c a IH]; simpl; [done|]. by rewrite IH. Qed.

Lemma chars_mention_token id :
  chars (mention_token id) = "<"%char :: "@"%char :: chars id ++ [">"%char].
Proof. unfold mention_token. by rewrite !chars_app. Qed.

(** A text of pattern characters is spliced as the run of its characters. *)
Lemma spliced_literal id :
  literal_text id = true → spliced (chars id) = Some (RChar <$> chars id).
Proof.
  unfold literal_text. induction (chars id) as [|c l IH]; simpl; [done|].
  intros [Hc Hl]%andb_prop. unfold spliced_char.
  apply negb_true_iff in Hc. rewrite Hc. simpl. by rewrite (IH Hl).
Qed.

(** The identifiers of the platform hold no syntax character. *)
Lemma alnum_not_syntax c : alnum c = true → syntax_character c = false.
Proof. destruct c as [[] [] [] [] [] [] [] []]; by vm_compute. Qed.

Lemma slack_id_literal id : slack_id id = true → literal_text id = true.
Proof.
  unfold slack_id, literal_text. intros [_ H]%andb_prop.
  induction (chars id) as [|c l IH]; simpl in *; [done|].
  apply andb_prop in H as [Hc Hl].
  by rewrite (alnum_not_syntax c Hc), IH.
Qed.

Lemma direct_mention_pattern_literal id :
  literal_text id = true →
  direct_mention_pattern id = Some (RSeq RBol (lits (chars (mention_token id)))).
Proof.
  intros H. unfold direct_mention_pattern. rewrite (spliced_literal _ H).
  unfold lits. rewrite chars_mention_token. simpl. by rewrite fmap_app.
Qed.

Lemma mention_pattern_literal id :
  literal_text id = true →
  mention_pattern id = Some (lits (chars (mention_token id))).
Proof.
  intros H. unfold mention_pattern. rewrite (spliced_literal _ H).
  unfold lits. rewrite chars_mention_token. simpl. by rewrite fmap_app.
Qed.

(** The text of an absent [text] field, ["undefined"], holds no mention. *)
Lemma test_undefined id :
  test (RSeq RBol (lits (chars (mention_token id)))) true "undefined" = false ∧
  test (lits (chars (mention_token id))) true "undefined" = false.
Proof. rewrite chars_mention_token. split; reflexivity. Qed.

Context {Msg Res : Type}.
Implicit Types m : Message Msg Res.

Lemma text_of_message m :
  isMessage m = true → ∃ e, event (body m) = Some e ∧ text_of m = ev_text e.
Proof.
  unfold isMessage, text_of. intros [_ H]%andb_prop.
  destruct (event (body m)) as [e|]; [|done]. by exists e.
Qed.

(** C5. For a bot user id without syntax character (the ids of the
    platform are letters and digits), [isDirectMention] and [isMention]
    answer, and: [isDirectMention] is true exactly when the event is a
    message whose text begins, at position zero and case-insensitively,
    with the bot's mention token; [isMention] is true exactly when the
    event is a message whose text holds that token somewhere. With the
    bot id U123, ["<@U123> hello"] is a direct mention and a mention,
    ["hi <@U123>"] is a mention and no direct mention. *)
Theorem mention_classification :
  (∀ m,
     literal_text (bot_user_id (meta m)) = true →
     let token := mention_token (bot_user_id (meta m)) in
     ∃ direct anywhere,
       isDirectMention m = Some direct ∧
       isMention m = Some anywhere ∧
       (direct = true ↔
        isMessage m = true ∧ ∃ text, text_of m = Some text ∧ begins_with_ci token text) ∧
       (anywhere = true ↔
        isMessage m = true ∧ ∃ text, text_of m = Some text ∧ appears_in_ci token text)) ∧
  isDirectMention (Examples.text_message (Msg:=Msg) (Res:=Res) "<@U123> hello" "U123") = Some true ∧
  isMention (Examples.text_message (Msg:=Msg) (Res:=Res) "<@U123> hello" "U123") = Some true ∧
  isDirectMention (Examples.text_message (Msg:=Msg) (Res:=Res) "hi <@U123>" "U123") = Some false ∧
  isMention (Examples.text_message (Msg:=Msg) (Res:=Res) "hi <@U123>" "U123") = Some true.
Proof.
  split; [|repeat split; reflexivity].
  intros m Hlit token.
  unfold isDirectMention, isMention.
  rewrite (direct_mention_pattern_literal _ Hlit), (mention_pattern_literal _ Hlit).
  cbn [mbind option_bind].
  destruct (isMessage m) eqn:Hmsg.
  - eexists _, _. split; [reflexivity|]. split; [reflexivity|].
    destruct (text_of m) as [text|] eqn:Htext; cbn [to_string default].
    + rewrite !test_true, search_anchored_lits, search_lits.
      rewrite strip_lits_begins, strip_lits_appears. split.
      * split; [intros H; split; [done|by exists text] | by intros [_ (? & [= <-] & ?)]].
      * split; [intros H; split; [done|by exists text] | by intros [_ (? & [= <-] & ?)]].
    + destruct (test_undefined (bot_user_id (meta m))) as [-> ->].
      split; (split; [done | by intros [_ (? & ? & _)]]).
  - exists false, false. repeat split; try done; by intros [? _].
Qed.

End Classification.

(** A mention token in lower case at the start of the text. *)
Lemma mention_classification_witness :
  ∃ direct anywhere,
    isDirectMention (Examples.text_message (Msg:=unit) (Res:=unit) "<@u123>: Hi" "U123")
      = Some direct ∧
    isMention (Examples.text_message (Msg:=unit) (Res:=unit) "<@u123>: Hi" "U123")
      = Some anywhere ∧
    direct = true ∧ anywhere = true.
Proof.
  destruct (proj1 (mention_classification (Msg:=unit) (Res:=unit))
              (Examples.text_message "<@u123>: Hi" "U123") eq_refl)
    as (direct & anywhere & Hd & Ha & _ & _).
  exists direct, anywhere. split; [exact Hd|]. split; [exact Ha|].
  split.
  - change (Some true = Some direct) in Hd. by injection Hd.
  - change (Some true = Some anywhere) in Ha. by injection Ha.
Defined.

(** C5 as stated fails on a bot user id with a syntax character: the id
    is written into the pattern unescaped, and with the id [U.23] the
    text ["<@UX23> hi"] is a direct mention although it does not begin
    with the token ["<@U.23>"]. *)
Lemma mention_classification_dot_id :
  isDirectMention (Examples.text_message (Msg:=unit) (Res:=unit) "<@UX23> hi" "U.23")
    = Some true ∧
  ¬ Spec.begins_with_ci (Patterns.mention_token "U.23") "<@UX23> hi".
Proof.
  split; [reflexivity|].
  rewrite <- strip_lits_begins. intros [tl H]. vm_compute in H. discriminate H.
Qed.

(** ** The arithmetic of doubles *)

Section Doubles.
#[local] Open Scope Z_scope.















End Doubles.

(** ** Outbound payloads *)

Section Outbound.
Import Spec.


Context {Msg Res : Type}.
Implicit Types m : Message Msg Res.

(** C10. The payload [say] posts carries the channel of the meta and the
    token of the meta ([bot_token], or [app_token] when there is no bot
    token), also when the normalized input has a channel or a token of
    its own: the values of the meta replace them. Every other field is
    the one of the normalized input. *)
Theorem say_payload m (input : JsVal) (random : float) :
  let normalized := _processInput input random in
  let payload := say m input random in
  payload !! "channel" = Some (of_field (channel_id (meta m))) ∧
  payload !! "token" = Some (of_field (js_or (bot_token (meta m)) (app_token (meta m)))) ∧
  (∀ t, bot_token (meta m) = Some t → t ≠ "" → payload !! "token" = Some (JStr t)) ∧
  (bot_token (meta m) = None → payload !! "token" = Some (of_field (app_token (meta m)))) ∧
  (∀ k, k ≠ "channel" → k ≠ "token" → payload !! k = own_props normalized !! k).
Proof.
  intros normalized payload. subst payload. unfold say, assign. fold normalized.
  cbn [own_props]. rewrite (right_id_L ∅ (∪)).
  assert (Hc : ∀ v : JsVal, ({[ "token" := v; "channel" := of_field (channel_id (meta m)) ]}
                  ∪ own_props normalized : gmap string JsVal) !! "channel"
               = Some (of_field (channel_id (meta m)))).
  { intros v. apply lookup_union_Some_l. by simplify_map_eq. }
  assert (Ht : ∀ v : JsVal, ({[ "token" := v; "channel" := of_field (channel_id (meta m)) ]}
                  ∪ own_props normalized : gmap string JsVal) !! "token" = Some v).
  { intros v. apply lookup_union_Some_l. by simplify_map_eq. }
  split; [apply Hc|]. split; [apply Ht|]. split; [|split].
  - intros t E Hne. rewrite Ht, E. simpl.
    destruct (String.eqb_spec t ""); done.
  - intros E. by rewrite Ht, E.
  - intros k Hk1 Hk2. apply lookup_union_r. by simplify_map_eq.
Qed.

End Outbound.



(** The channel of the input gives way to the channel of the meta. *)
Lemma say_payload_witness :
  say (Examples.text_message (Msg:=unit) (Res:=unit) "hi" "U123")
      (JObj {[ "text" := JStr "x"; "channel" := JStr "C9" ]}) 0 !! "channel"
  = Some (JStr "C1") ∧
  say (Examples.text_message (Msg:=unit) (Res:=unit) "hi" "U123")
      (JObj {[ "text" := JStr "x"; "channel" := JStr "C9" ]}) 0 !! "text"
  = Some (JStr "x").
Proof.
  destruct (say_payload (Examples.text_message (Msg:=unit) (Res:=unit) "hi" "U123")
              (JObj {[ "text" := JStr "x"; "channel" := JStr "C9" ]}) 0)
    as (Hc & _ & _ & _ & Hk).
  split; [exact Hc|].
  rewrite (Hk "text"); [reflexivity | discriminate | discriminate].
Defined.

(** ** The outcome of [respond] *)

Section Respond.

(** For a body that is neither [null] nor [undefined] the outcomes come
    in the order: transport error, error field, rate-limit notice,
    success with the [ok] field removed. *)
Lemma respond_done_priority (err body : JsVal) :
  body ≠ JNull → body ≠ JUndefined →
  ∃ error,
    get_prop body "error" = Ok error ∧
    (truthy err = true → respond_done err body = Ok (CallbackAsIs err)) ∧
    (truthy err = false → truthy error = true →
     respond_done err body = Ok (CallbackError error)) ∧
    (truthy err = false → truthy error = false →
     ∀ s, body = JStr s → Str.includes s rateLimit = true →
          respond_done err body = Ok (CallbackError (JStr "rate_limit"))) ∧
    (truthy err = false → truthy error = false →
     (∀ s, body = JStr s → Str.includes s rateLimit = false) →
     respond_done err body = Ok (CallbackData (delete_prop body "ok"))).
Proof.
  intros Hnull Hundef. unfold respond_done.
  destruct body as [| |b|n|s|items|fields]; try done; simpl;
    eexists; (split; [reflexivity|]);
    repeat split; intros; simplify_eq/=;
    repeat match goal with
           | H : truthy ?v = _ |- context [truthy ?v] => rewrite H
           | H : Str.includes ?s ?t = _ |- context [Str.includes ?s ?t] => rewrite H
           | H : ∀ s, JStr _ = JStr s → _ |- _ => rewrite (H _ eq_refl)
           end; done.
Qed.

(** C7, at the failing input. When the request completes without a
    transport error and without a body (an empty response, or the JSON
    text [null]), reading [body.error] throws: the callback is not
    called, where the claim has it receive [(null, body)]. *)
Theorem respond_done_without_body :
  respond_done JNull JUndefined = Throw (TypeError "Cannot read property error") ∧
  respond_done JNull JNull = Throw (TypeError "Cannot read property error") ∧
  (∀ call, respond_done JNull JUndefined ≠ Ok call) ∧
  respond_done JNull (JObj {[ "error" := JStr "invalid_payload" ]})
    = Ok (CallbackError (JStr "invalid_payload")) ∧
  respond_done JNull (JStr rateLimit) = Ok (CallbackError (JStr "rate_limit")) ∧
  respond_done JNull (JObj {[ "ok" := JBool true; "ts" := JStr "1" ]})
    = Ok (CallbackData (JObj {[ "ts" := JStr "1" ]})).
Proof. repeat split; done. Qed.

End Respond.

(** ** Quantifiers *)

Section Quantifiers.
Import Str RegExp Patterns.

Variable ignoreCase : bool.
Variable n : nat.

Lemma run_split p l : l = run p l ++ after_run p l.
Proof.
  induction l as [|c l IH]; simpl; [done|].
  destruct (p c); simpl; [|done]. by rewrite <- IH.
Qed.

Lemma after_run_length p l : (length (after_run p l) <= length l)%nat.
Proof.
  induction l as [|c l IH]; simpl; [done|].
  destruct (p c); simpl; lia.
Qed.

Lemma take_run p l : take (length l - length (after_run p l)) l = run p l.
Proof.
  rewrite (run_split p l) at 1 3. rewrite length_app.
  replace (length (run p l) + length (after_run p l) - length (after_run p l))
    with (length (run p l)) by lia.
  by rewrite take_app_length.
Qed.

Lemma run_all p l : Forall (λ c, p c = true) l → run p l = l.
Proof. induction 1 as [|c l Hc _ IH]; simpl; [done|]. by rewrite Hc, IH. Qed.

Lemma run_Forall p l : Forall (λ c, p c = true) (run p l).
Proof.
  induction l as [|c l IH]; simpl; [done|].
  destruct (p c) eqn:E; by constructor.
Qed.

(** A greedy [*] or [+] over one-character atoms takes the longest run,
    whatever comes next. *)
Lemma repeat_greedy_run p (k : Cont) fuel min x :
  settles p k →
  (min <= 1)%nat →
  (min + length (rest x) < fuel)%nat →
  repeat_matcher (step p) [] k fuel min None x =
    if bool_decide (min = 1) && bool_decide (run p (rest x) = [])
    then None
    else k {| rest := after_run p (rest x); caps := caps x |}.
Proof.
  intros Hk. revert min x. induction fuel as [|fuel IH]; intros min x Hmin Hlen.
  { exfalso. clear Hk. lia. }
  assert (Hnext : ∀ tl cs, (length tl < fuel)%nat →
            repeat_matcher (step p) [] k fuel 0 None {| rest := tl; caps := cs |}
            = k {| rest := after_run p tl; caps := cs |}).
  { intros tl cs Hl. rewrite IH by (simpl; clear Hk IH; lia). done. }
  destruct x as [l cs]. cbn [repeat_matcher rest caps clear_captures foldr] in *.
  rewrite bool_decide_eq_false_2 by done.
  destruct min as [|[|min]]; [| |exfalso; clear Hk IH Hnext; lia].
  - unfold step. cbn [rest caps].
    rewrite (bool_decide_eq_true_2 (0 = 0)) by done.
    rewrite (bool_decide_eq_false_2 (0 = 1)) by done.
    cbn [andb]. destruct l as [|c tl]; [done|].
    cbn [run after_run]. destruct (p c) eqn:Hc; [|done].
    rewrite bool_decide_eq_false_2 by (simpl; clear; lia).
    cbn [Init.Nat.pred fmap option_fmap option_map].
    rewrite Hnext by (simpl in *; clear Hk IH Hnext; lia).
    destruct (k {| rest := after_run p tl; caps := cs |}) eqn:E; [done|].
    destruct Hk as [Hk|Hk].
    + destruct (Hk {| rest := after_run p tl; caps := cs |}) as [z Hz]. congruence.
    + by apply (Hk _ c tl).
  - unfold step. cbn [rest caps]. rewrite (bool_decide_eq_true_2 (1 = 1)) by done.
    cbn [andb]. destruct l as [|c tl]; [by rewrite bool_decide_eq_true_2|].
    cbn [run after_run]. destruct (p c) eqn:Hc; [|by rewrite bool_decide_eq_true_2].
    rewrite (bool_decide_eq_false_2 (1 = 0)) by done.
    rewrite (bool_decide_eq_false_2 (c :: _ = [])) by done.
    cbn [andb Init.Nat.pred fmap option_fmap option_map].
    by rewrite Hnext by (simpl in *; clear Hk IH Hnext; lia).
Qed.

(** The group of the greedy star of the dot captures the rest of the
    line. *)
Lemma rmatch_line_group x :
  rmatch ignoreCase n (RGroup 1 (RRepeat 0 None RDot)) Some x =
    Some {| rest := line_rest (rest x);
            caps := <[1 := line_prefix (rest x)]> (caps x) |}.
Proof.
  cbn [rmatch groups].
  change (rmatch ignoreCase n RDot) with (step (λ c, negb (line_terminator c))).
  rewrite repeat_greedy_run; [|left; eauto|lia|lia].
  cbn [rest caps andb bool_decide]. rewrite (bool_decide_eq_false_2 (0 = 1)) by done.
  cbn [andb]. unfold line_prefix, line_rest. by rewrite take_run.
Qed.

(** An optional pattern character is taken when it is there and the rest
    of the pattern then matches. *)
Lemma rmatch_optional_char c (k : Cont) x :
  rmatch ignoreCase n (RRepeat 0 (Some 1) (RChar c)) k x =
    match rest x with
    | d :: tl =>
        if same_char ignoreCase c d then
          match k {| rest := tl; caps := caps x |} with
          | Some z => Some z
          | None => k x
          end
        else k x
    | [] => k x
    end.
Proof.
  destruct x as [l cs]. simpl. unfold step. simpl.
  destruct l as [|d tl]; simpl; [done|].
  destruct (same_char ignoreCase c d); [|done].
  rewrite bool_decide_eq_false_2 by lia.
  by rewrite Nat.add_1_r.
Qed.

End Quantifiers.

(** ** The direct-mention prefix *)

Section Stripping.
Import Str RegExp Patterns.

Context {Msg Res : Type}.
Implicit Types m : Message Msg Res.

Lemma strip_pattern_literal id :
  literal_text id = true →
  strip_pattern id =
    Some (RSeq RBol
            (seq ((RChar <$> chars (mention_token id)) ++
                  [RRepeat 0 (Some 1) (RChar ":"); RGroup 1 (RRepeat 0 None RDot)]))).
Proof.
  intros H. unfold strip_pattern. rewrite (spliced_literal _ H).
  rewrite chars_mention_token. simpl. do 4 f_equal.
  by rewrite fmap_app, <- app_assoc.
Qed.

Lemma rmatch_seq_cons ic n r rs k x :
  rmatch ic n (seq (r :: rs)) k x = rmatch ic n r (rmatch ic n (seq rs) k) x.
Proof. reflexivity. Qed.

(** An anchored pattern is tried at the start of the input, once. *)
Lemma search_anchored ic r input :
  search (RSeq RBol r) ic (length input) input =
    match rmatch ic (length input) r Some {| rest := input; caps := ∅ |} with
    | Some y =>
        Some {| m_index := 0;
                m_end := length input - length (rest y);
                m_whole := of_chars (take (length input - length (rest y)) input);
                m_groups := of_chars <$> caps y |}
    | None => None
    end.
Proof.
  destruct input as [|c input].
  - simpl. by destruct (rmatch ic 0 r Some _).
  - cbn [search rmatch rest]. rewrite bool_decide_eq_true_2 by done.
    destruct (rmatch ic _ r Some _).
    + by rewrite Nat.sub_diag.
    + apply search_anchored_later. simpl. lia.
Qed.

(** What the pattern of [stripDirectMention] finds in a text. *)
Lemma exec_strip id text :
  exec (RSeq RBol
          (seq ((RChar <$> chars (mention_token id)) ++
                [RRepeat 0 (Some 1) (RChar ":"); RGroup 1 (RRepeat 0 None RDot)])))
       false text 0 =
    match strip_lits false (chars (mention_token id)) (chars text) with
    | Some after =>
        Some {| m_index := 0;
                m_end := length (chars text) - length (line_rest (drop_colon after));
                m_whole := of_chars (take (length (chars text)
                                           - length (line_rest (drop_colon after)))
                                       (chars text));
                m_groups := {[ 1 := of_chars (line_prefix (drop_colon after)) ]} |}
    | None => None
    end.
Proof.
  rewrite exec_start, search_anchored, rmatch_chars_then. cbn [rest caps].
  destruct (strip_lits false (chars (mention_token id)) (chars text)) as [after|]; [|done].
  rewrite rmatch_seq_cons, rmatch_optional_char. cbn [rest caps].
  assert (Hgroup : ∀ x, rmatch false (length (chars text))
                          (seq [RGroup 1 (RRepeat 0 None RDot)]) Some x
                        = Some {| rest := line_rest (rest x);
                                  caps := <[1 := line_prefix (rest x)]> (caps x) |}).
  { intros x. rewrite rmatch_seq_cons. apply (rmatch_line_group false). }
  unfold drop_colon, same_char, canonicalize.
  destruct after as [|d tl]; [by rewrite Hgroup|].
  case_bool_decide; rewrite Hgroup; cbn [rest caps]; by rewrite insert_empty, map_fmap_singleton.
Qed.

(** [stripDirectMention] on a message with a text, for a bot user id of
    pattern characters: a text that does not begin with the mention
    token is returned as it is; otherwise the token and one colon after
    it are dropped, and what remains of the first line is trimmed. *)
Lemma stripDirectMention_message m text :
  isMessage m = true →
  text_of m = Some text →
  literal_text (bot_user_id (meta m)) = true →
  stripDirectMention m =
    Some (Ok match strip_lits false (chars (mention_token (bot_user_id (meta m)))) (chars text) with
             | Some after => trim (of_chars (line_prefix (drop_colon after)))
             | None => text
             end).
Proof.
  intros Hmsg Htext Hlit. unfold stripDirectMention.
  rewrite Hmsg, Htext, (strip_pattern_literal _ Hlit). cbn [mbind option_bind].
  rewrite exec_strip.
  destruct (strip_lits false _ (chars text)) as [after|]; [|done].
  cbn [m_groups]. by rewrite lookup_singleton_eq.
Qed.

(** When what follows the token has no line terminator, the whole of it
    is kept. *)
Lemma line_prefix_all l :
  Forall (λ c, line_terminator c = false) l → line_prefix l = l.
Proof.
  intros H. apply run_all. eapply Forall_impl; [exact H|].
  intros c Hc. simpl in Hc. by rewrite Hc.
Qed.

(** Without the [i] flag a run of pattern characters matches itself only. *)
Lemma strip_lits_exact l input tl :
  strip_lits false l input = Some tl ↔ input = l ++ tl.
Proof.
  rewrite strip_lits_Some. split.
  - intros (p & -> & H). f_equal. symmetry.
    induction H as [|a d l p Had _ IH]; [done|].
    apply bool_decide_eq_true in Had. simpl in Had. by rewrite Had, IH.
  - intros ->. exists l. split; [done|].
    induction l as [|a l IH]; constructor; [|done].
    by apply bool_decide_eq_true.
Qed.

(** The three cases of [stripDirectMention], where they hold: an event
    that is no message gives the empty text; a message whose text does
    not start with the mention token gives its text; a message whose
    text is the token and then one line gives that line without a
    leading colon, trimmed. *)
Lemma stripDirectMention_other m :
  isMessage m = false → stripDirectMention m = Some (Ok "").
Proof. intros H. unfold stripDirectMention. by rewrite H. Qed.

Lemma stripDirectMention_unchanged m text :
  isMessage m = true →
  text_of m = Some text →
  literal_text (bot_user_id (meta m)) = true →
  (∀ after, chars text ≠ chars (mention_token (bot_user_id (meta m))) ++ after) →
  stripDirectMention m = Some (Ok text).
Proof.
  intros Hmsg Htext Hlit Hno. rewrite (stripDirectMention_message m text) by done.
  destruct (strip_lits false _ (chars text)) as [after|] eqn:E; [|done].
  apply strip_lits_exact in E. by destruct (Hno after).
Qed.

Lemma stripDirectMention_one_line m text after :
  isMessage m = true →
  text_of m = Some text →
  literal_text (bot_user_id (meta m)) = true →
  chars text = chars (mention_token (bot_user_id (meta m))) ++ after →
  Forall (λ c, line_terminator c = false) after →
  stripDirectMention m = Some (Ok (trim (of_chars (drop_colon after)))).
Proof.
  intros Hmsg Htext Hlit Htok Hline. rewrite (stripDirectMention_message m text) by done.
  apply strip_lits_exact in Htok. rewrite Htok. do 4 f_equal.
  apply line_prefix_all. unfold drop_colon.
  destruct Hline as [|c l Hc Hl]; [done|]. case_bool_decide; [done|by constructor].
Qed.

End Stripping.

(** ** Links *)

Section Links.
Import Str RegExp Patterns.

(** What the pattern of [linksMentioned] matches at the start of a text:
    [<], the longest run of characters other than [@], [^] and [>], not
    empty, and [>]. *)
Lemma rmatch_links n x :
  rmatch false n links_pattern Some x =
    match rest x with
    | c :: tl =>
        if bool_decide ("<"%char = c) && negb (bool_decide (run link_char tl = [])) then
          match after_run link_char tl with
          | d :: tl' =>
              if bool_decide (">"%char = d)
              then Some {| rest := tl'; caps := <[1 := run link_char tl]> (caps x) |}
              else None
          | [] => None
          end
        else None
    | [] => None
    end.
Proof.
  unfold links_pattern. rewrite rmatch_seq_cons. cbn [rmatch groups]. unfold step at 1.
  destruct x as [l cs]. cbn [rest caps].
  destruct l as [|c tl]; [done|].
  change (same_char false "<" c) with (bool_decide ("<"%char = c)).
  case_bool_decide; [|done]. cbn [andb].
  rewrite rmatch_seq_cons.
  change (rmatch false n (RGroup 1 (RRepeat 1 None ?r)) ?k ?x)
    with (repeat_matcher (rmatch false n r) (groups r)
            (λ y, k {| rest := rest y;
                       caps := <[1 := take (length (rest x) - length (rest y)) (rest x)]> (caps y) |})
            (1 + length (rest x) + 1) 1 None x).
  change (rmatch false n (RClass true ["@"; "^"; ">"]%char)) with (step link_char).
  cbn [groups].
  rewrite repeat_greedy_run; [| |done|cbn [rest]; lia].
  - cbn [rest caps]. rewrite (bool_decide_eq_true_2 (1 = 1)) by done. cbn [andb].
    case_bool_decide; [done|]. cbn [negb].
    rewrite take_run, rmatch_seq_cons. cbn [rmatch seq foldr]. unfold step. cbn [rest caps].
    destruct (after_run link_char tl) as [|d tl']; [done|].
    change (same_char false ">" d) with (bool_decide (">"%char = d)).
    by case_bool_decide.
  - right. intros y d tl' Hy Hd. rewrite rmatch_seq_cons. cbn [rmatch].
    unfold step. cbn [rest caps]. rewrite Hy.
    change (same_char false ">" d) with (bool_decide (">"%char = d)).
    case_bool_decide; [|done]. by subst d.
Qed.

Lemma chars_of_chars l : chars (of_chars l) = l.
Proof. apply String.list_ascii_of_string_of_list_ascii. Qed.

Lemma search_links_Some n suffix mt :
  search links_pattern false n suffix = Some mt →
  (length suffix <= n)%nat →
  (n - length suffix < m_end mt)%nat ∧ (m_end mt <= n)%nat ∧
  ∃ g, m_groups mt !! 1 = Some g ∧ link_free g.
Proof.
  induction suffix as [|c suffix IH]; cbn [search]; rewrite rmatch_links; cbn [rest caps].
  - done.
  - intros H Hlen.
    destruct (bool_decide ("<"%char = c) && negb (bool_decide (run link_char suffix = [])));
      [|apply IH in H as (? & ? & ?); [|simpl in Hlen; lia];
        split; [simpl; lia|done]].
    pose proof (after_run_length link_char suffix) as Hle.
    destruct (after_run link_char suffix) as [|d tl'] eqn:E;
      [apply IH in H as (? & ? & ?); [|simpl in Hlen; lia]; split; [simpl; lia|done]|].
    case_bool_decide;
      [|apply IH in H as (? & ? & ?); [|simpl in Hlen; lia]; split; [simpl; lia|done]].
    injection H as <-. cbn [m_end m_groups rest caps]. simpl in *.
    split; [lia|]. split; [lia|].
    exists (of_chars (run link_char suffix)). split.
    + by rewrite lookup_fmap, lookup_insert_eq.
    + unfold link_free. rewrite chars_of_chars. apply run_Forall.
Qed.

Lemma before_first_Forall (P : ascii → Prop) sep l :
  Forall P l → Forall P (before_first sep l).
Proof.
  induction 1 as [|c l Hc _ IH]; simpl; [done|].
  case_bool_decide; by constructor.
Qed.

(** The loop of [linksMentioned] ends within its fuel and throws
    nothing; what it adds holds no [@], [^] or [>]. *)
Lemma links_loop_total text fuel i acc :
  (length (chars text) - i < fuel)%nat →
  Forall link_free acc →
  ∃ links, links_loop text fuel i acc = Some (Ok links) ∧ Forall link_free links.
Proof.
  revert i acc. induction fuel as [|fuel IH]; intros i acc Hfuel Hacc; [lia|].
  cbn [links_loop]. unfold exec.
  destruct (length (chars text) <? i)%nat eqn:Hi; [by exists acc|].
  apply Nat.ltb_ge in Hi.
  destruct (search links_pattern false _ _) as [mt|] eqn:E; [|by exists acc].
  apply search_links_Some in E as (Hlo & Hhi & g & -> & Hg);
    [|rewrite length_drop; lia].
  rewrite length_drop in Hlo.
  apply IH; [lia|].
  apply Forall_app. split; [done|]. constructor; [|done].
  unfold link_free. rewrite chars_of_chars. by apply before_first_Forall.
Qed.

Context {Msg Res : Type}.

(** [linksMentioned] always returns, and no reference it returns holds
    an [@]: nothing of a user mention is ever returned. *)
Lemma linksMentioned_total (m : Message Msg Res) :
  ∃ links, linksMentioned m = Some (Ok links) ∧ Forall link_free links.
Proof.
  unfold linksMentioned. destruct (isMessage m); [|by exists []].
  apply links_loop_total; [lia|done].
Qed.

End Links.

(** ** Links and the direct-mention prefix, on sample texts *)

Section Extraction.
Import Examples.

Context {Msg Res : Type}.

(** C6, at the failing input. The group [.*] stops at the first line
    terminator, so of a text of several lines only the first line is
    kept: for ["<@U123> hi"], a line feed and ["there"] the result is
    ["hi"], where the claim has the whole remaining text, trimmed. The
    two sample texts of the claim and an event that is no message give
    what the claim says. *)
Theorem stripDirectMention_first_line_only :
  stripDirectMention (text_message (Msg:=Msg) (Res:=Res) ("<@U123> hi" +:+ LF +:+ "there") "U123")
    = Some (Ok "hi") ∧
  Str.trim (" hi" +:+ LF +:+ "there") = "hi" +:+ LF +:+ "there" ∧
  stripDirectMention (text_message (Msg:=Msg) (Res:=Res) "<@U123>: hi there" "U123")
    = Some (Ok "hi there") ∧
  stripDirectMention (text_message (Msg:=Msg) (Res:=Res) "<@U999> hi" "U123")
    = Some (Ok "<@U999> hi") ∧
  stripDirectMention
    (new_Message (Msg:=Msg) (Res:=Res) "command" {| event := None |} meta0)
    = Some (Ok "").
Proof. repeat split; reflexivity. Qed.

(** C8, at the failing input. The class of the pattern leaves out [@],
    [^] and [>] only: a channel mention is a bracketed reference like
    any other and appears in the result, where the claim has channel
    mentions never appear. A user mention does not appear, nor does a
    link that holds an [@]; the sample text of the claim gives its two
    links. *)
Theorem linksMentioned_channel_mention :
  linksMentioned (text_message (Msg:=Msg) (Res:=Res) "see <#C123> and <http://a.co|A>" "U123")
    = Some (Ok ["#C123"; "http://a.co"]) ∧
  linksMentioned (text_message (Msg:=Msg) (Res:=Res) "<@U1> <http://a.co>" "U123")
    = Some (Ok ["http://a.co"]) ∧
  linksMentioned (text_message (Msg:=Msg) (Res:=Res) "<mailto:bob@a.co|Bob>" "U123")
    = Some (Ok []) ∧
  linksMentioned (text_message (Msg:=Msg) (Res:=Res) "<http://a.co|A> <http://b.co>" "U123")
    = Some (Ok ["http://a.co"; "http://b.co"]).
Proof. repeat split; vm_compute; reflexivity. Qed.

End Extraction.

(** * Further properties *)

(** ** The matcher only moves forward *)

Section ForwardOnly.
Import Str RegExp Forward.

Variable ignoreCase : bool.
Variable n : nat.

Lemma step_forward p : forward (step p).
Proof.
  intros k [l cs] z. unfold step. simpl.
  destruct l as [|d tl]; [done|]. destruct (p d); [|done].
  intros H. eexists. split; [exact H|]. simpl. by apply suffix_cons_r.
Qed.

Lemma repeat_matcher_forward m gs fuel min max :
  forward m → forward (λ k : Cont, repeat_matcher m gs k fuel min max).
Proof.
  intros Hm. revert min max. induction fuel as [|fuel IH]; intros min max k' x z; [done|].
  cbn [repeat_matcher]. case_bool_decide; [by eauto|].
  assert (Hd : ∀ y z, (if bool_decide (min = 0) && bool_decide (length (rest y) = length (rest x))
                       then None
                       else repeat_matcher m gs k' fuel (pred min) (pred <$> max) y) = Some z →
               ∃ y', k' y' = Some z ∧ rest y' `suffix_of` rest y).
  { intros y z'. destruct (_ && _); [done|]. apply IH. }
  assert (Hm' : ∀ z, m (λ y, if bool_decide (min = 0)
                                   && bool_decide (length (rest y) = length (rest x))
                              then None
                              else repeat_matcher m gs k' fuel (pred min) (pred <$> max) y)
                       {| rest := rest x; caps := clear_captures gs (caps x) |} = Some z →
                ∃ y', k' y' = Some z ∧ rest y' `suffix_of` rest x).
  { intros z' H'. apply Hm in H' as (y & Hy & Hs). simpl in Hs.
    apply Hd in Hy as (y' & Hy' & Hs'). exists y'. split; [done|]. by etrans. }
  destruct min as [|min]; [|apply Hm'].
  destruct (m _ _) as [z'|] eqn:E.
  - intros [= <-]. by apply Hm'.
  - by eauto.
Qed.

(** Whatever the pattern, a match ends at or after the position where it
    was tried. *)
Lemma rmatch_forward r : forward (rmatch ignoreCase n r).
Proof.
  induction r as [|c| |neg members| |r1 IH1 r2 IH2|min max r IH|i r IH];
    intros k x z; cbn [rmatch].
  - by eauto.
  - apply step_forward.
  - apply step_forward.
  - apply step_forward.
  - case_bool_decide; [by eauto|done].
  - intros (y & Hy & Hs)%IH1. apply IH2 in Hy as (y' & Hy' & Hs').
    exists y'. split; [done|]. by etrans.
  - by apply repeat_matcher_forward.
  - intros (y & Hy & Hs)%IH. eexists. split; [exact Hy|]. done.
Qed.

(** A pattern that begins with a pattern character matches at least
    that character. *)
Lemma rmatch_advances c rs x z :
  rmatch ignoreCase n (seq (RChar c :: rs)) Some x = Some z →
  (length (rest z) < length (rest x))%nat.
Proof.
  change (seq (RChar c :: rs)) with (RSeq (RChar c) (seq rs)). cbn [rmatch].
  unfold step. destruct x as [l cs]. simpl.
  destruct l as [|d tl]; [done|]. destruct (same_char ignoreCase c d); [|done].
  intros (y & [= ->] & Hs%suffix_length)%rmatch_forward. simpl in *. lia.
Qed.

End ForwardOnly.

(** ** The loops over the matches of a global pattern *)

Section Loops.
Import Str RegExp Patterns Mentions Forward.

Lemma advances_seq c rs : advances (seq (RChar c :: rs)).
Proof. intros n x z. apply rmatch_advances. Qed.

(** The match found from a position on ends after that position, within
    the text, and starts at or after it. *)
Lemma search_bounds re n suffix mt :
  advances re →
  search re false n suffix = Some mt →
  (length suffix <= n)%nat →
  (n - length suffix <= m_index mt)%nat ∧ (m_index mt < m_end mt)%nat ∧ (m_end mt <= n)%nat.
Proof.
  intros Hadv. induction suffix as [|c suffix IH]; cbn [search].
  - destruct (rmatch _ _ _ _ _) as [y|] eqn:E; [|done].
    apply Hadv in E. simpl in E. lia.
  - destruct (rmatch _ _ _ _ _) as [y|] eqn:E.
    + intros [= <-] Hlen. apply Hadv in E. simpl in *. lia.
    + intros H Hlen. simpl in Hlen. destruct (IH H) as (? & ? & ?); [lia|].
      simpl. lia.
Qed.

Lemma exec_bounds re text i mt :
  advances re →
  exec re false text i = Some mt →
  (i <= m_index mt)%nat ∧ (m_index mt < m_end mt)%nat ∧ (m_end mt <= length (chars text))%nat.
Proof.
  intros Hadv. unfold exec. destruct (_ <? _)%nat eqn:Hi; [done|].
  apply Nat.ltb_ge in Hi. intros H.
  apply search_bounds in H as (? & ? & ?); [|done|rewrite length_drop; lia].
  rewrite length_drop in *. lia.
Qed.

(** The loop of [_regexMentions] ends within its fuel when every match
    holds a character; it adds one element for each match. *)
Lemma regexMentions_loop_total re text fuel i acc :
  advances re →
  (length (chars text) - i < fuel)%nat →
  ∃ found, regexMentions_loop re text fuel i acc = Some (acc ++ found).
Proof.
  intros Hadv. revert i acc. induction fuel as [|fuel IH]; intros i acc Hfuel; [lia|].
  cbn [regexMentions_loop].
  destruct (exec re false text i) as [mt|] eqn:E.
  - apply exec_bounds in E as (? & ? & ?); [|done].
    destruct (IH (m_end mt) (acc ++ [m_groups mt !! 1])) as [found Hf]; [lia|].
    exists (m_groups mt !! 1 :: found). by rewrite Hf, <- app_assoc.
  - exists []. by rewrite app_nil_r.
Qed.

Context {Msg Res : Type}.
Implicit Types m : Message Msg Res.

Lemma regexMentions_total m re :
  advances re → is_Some (_regexMentions m re).
Proof.
  intros Hadv. unfold _regexMentions. destruct (isMessage m); [|done].
  destruct (regexMentions_loop_total re (to_string (text_of m))
              (S (length (chars (to_string (text_of m))))) 0 [] Hadv) as [found ->]; [lia|].
  done.
Qed.

(** X1. The loops of the mention methods end on every event: each match
    of their patterns begins with [<], so every turn of a loop moves on
    in the text. All six methods return, whatever the text. *)
Theorem mention_methods_return m :
  is_Some (usersMentioned m) ∧ is_Some (channelsMentioned m) ∧
  is_Some (subteamGroupsMentioned m) ∧ is_Some (everyoneMentioned m) ∧
  is_Some (channelMentioned m) ∧ is_Some (hereMentioned m).
Proof.
  unfold usersMentioned, channelsMentioned, subteamGroupsMentioned,
    everyoneMentioned, channelMentioned, hereMentioned.
  repeat split;
    try (apply regexMentions_total, advances_seq);
    match goal with
    | |- is_Some (_regexMentions m ?re ≫= _) =>
        destruct (regexMentions_total m re (advances_seq _ _)) as [ms ->]; done
    end.
Qed.

End Loops.

(** ** References to users and channels *)

Section References.
Import Str RegExp Patterns Mentions Forward Render.

Lemma alnum_class_alnum d :
  xorb false (existsb (λ a, same_char false a d) alnum_class) = Spec.alnum d.
Proof. destruct d as [[] [] [] [] [] [] [] []]; by vm_compute. Qed.

Lemma run_ext p q l : (∀ c, p c = q c) → run p l = run q l.
Proof. intros H. induction l as [|c l IH]; simpl; [done|]. by rewrite H, IH. Qed.

Lemma after_run_ext p q l : (∀ c, p c = q c) → after_run p l = after_run q l.
Proof. intros H. induction l as [|c l IH]; simpl; [done|]. by rewrite H, IH. Qed.

Lemma rmatch_char_cons ic n c rs k d tl cs :
  rmatch ic n (seq (RChar c :: rs)) k {| rest := d :: tl; caps := cs |} =
    if same_char ic c d then rmatch ic n (seq rs) k {| rest := tl; caps := cs |} else None.
Proof. reflexivity. Qed.

Lemma same_char_exact a d : same_char false a d = bool_decide (a = d).
Proof. reflexivity. Qed.

(** A pattern that begins with a pattern character fails where the text
    continues with another character, and at the end of the text. *)
Lemma rmatch_first_char n c rs k x :
  (∀ tl, rest x ≠ c :: tl) → rmatch false n (seq (RChar c :: rs)) k x = None.
Proof.
  intros Hx. destruct x as [[|d tl] cs]; [done|]. rewrite rmatch_char_cons, same_char_exact.
  case_bool_decide; [|done]. subst d. by destruct (Hx tl).
Qed.

(** What the pattern of a kind of id matches at the start of a text: the
    bracket, the sign, the letter, the longest run of letters and
    digits, not empty, and the closing bracket. The group is the letter
    and the run. *)
Lemma rmatch_id sigil letter n tl cs :
  rmatch false n (id_pattern sigil letter) Some
    {| rest := "<"%char :: sigil :: letter :: tl; caps := cs |} =
    if bool_decide (run Spec.alnum tl = []) then None
    else match after_run Spec.alnum tl with
         | d :: tl' =>
             if bool_decide (">"%char = d)
             then Some {| rest := tl'; caps := <[1 := letter :: run Spec.alnum tl]> cs |}
             else None
         | [] => None
         end.
Proof.
  unfold id_pattern.
  rewrite !rmatch_char_cons, !same_char_exact, !bool_decide_eq_true_2 by done.
  rewrite rmatch_seq_cons. cbn [rmatch]. cbn [rest caps].
  rewrite rmatch_char_cons, same_char_exact, bool_decide_eq_true_2 by done.
  rewrite rmatch_seq_cons. cbn [rmatch groups rest caps].
  set (p := λ d, xorb false (existsb (λ a, same_char false a d) alnum_class)).
  change (step (λ d, xorb false (existsb (λ a, same_char false a d) alnum_class)))
    with (step p).
  rewrite <- (run_ext p Spec.alnum tl alnum_class_alnum).
  rewrite <- (after_run_ext p Spec.alnum tl alnum_class_alnum).
  rewrite repeat_greedy_run; [| |done|cbn [rest]; lia].
  - cbn [rest caps]. rewrite (bool_decide_eq_true_2 (1 = 1)) by done. cbn [andb].
    case_bool_decide as Hrun; [done|].
    pose proof (take_run p tl) as Htake.
    pose proof (after_run_length p tl) as Hle.
    destruct (after_run p tl) as [|d tl'] eqn:E.
    { by change (rmatch false n (seq []) ?k ?x) with (k x). }
    change (rmatch false n (seq []) ?k ?x) with (k x). cbn beta. cbn [rest caps].
    rewrite rmatch_char_cons, same_char_exact.
    case_bool_decide; [|done]. do 3 f_equal.
    rewrite <- Htake. cbn [length] in *.
    by replace (S (length tl) - S (length tl')) with (S (length tl - S (length tl'))) by lia.
  - right. intros [l cs'] d tl' Hy Hd. simpl in Hy. subst l. cbn [rest caps].
    change (rmatch false n (seq []) ?k ?x) with (k x). cbn beta. cbn [rest caps].
    rewrite rmatch_char_cons, same_char_exact.
    case_bool_decide; [|done]. subst d. by vm_compute in Hd.
Qed.

Lemma forallb_Forall {A : Type} (f : A → bool) (l : list A) :
  forallb f l = true → Forall (λ c, f c = true) l.
Proof.
  induction l as [|c l IH]; simpl; [done|].
  intros [Hc Hl]%andb_prop. constructor; auto.
Qed.

Lemma run_app_stop p l d r :
  Forall (λ c, p c = true) l → p d = false →
  run p (l ++ d :: r) = l ∧ after_run p (l ++ d :: r) = d :: r.
Proof.
  intros Hl Hd. induction Hl as [|c l Hc _ [IH1 IH2]]; simpl.
  - by rewrite Hd.
  - by rewrite Hc, IH1, IH2.
Qed.

Lemma of_chars_chars s : of_chars (chars s) = s.
Proof. apply String.string_of_list_ascii_of_string. Qed.

Lemma chars_reference sigil id :
  chars (reference sigil id) = "<"%char :: sigil :: chars id ++ [">"%char].
Proof. unfold reference. simpl. by rewrite chars_app. Qed.

(** The pattern of a kind matches a reference to an id of the kind, all
    of it and no more, whatever comes next. *)
Lemma rmatch_reference sigil letter id n rest0 cs :
  id_of_kind letter id = true →
  rmatch false n (id_pattern sigil letter) Some
    {| rest := chars (reference sigil id) ++ rest0; caps := cs |} =
    Some {| rest := rest0; caps := <[1 := chars id]> cs |}.
Proof.
  unfold id_of_kind. rewrite chars_reference.
  destruct (chars id) as [|c [|d tl]]; [done|done|].
  intros [Hc Hal]%andb_prop. apply bool_decide_eq_true in Hc as ->.
  apply forallb_Forall in Hal.
  cbn [app]. rewrite <- app_assoc. cbn [app].
  rewrite rmatch_id.
  destruct (run_app_stop Spec.alnum (d :: tl) ">" rest0 Hal eq_refl) as [Hrun Hafter].
  cbn [app] in Hrun, Hafter. rewrite Hrun, Hafter.
  rewrite bool_decide_eq_false_2 by done. by rewrite bool_decide_eq_true_2.
Qed.

(** The search passes over a text without opening bracket. *)
Lemma search_bracket_free rs n before suffix :
  Forall (λ c, c ≠ "<"%char) before →
  search (seq (RChar "<" :: rs)) false n (before ++ suffix) =
  search (seq (RChar "<" :: rs)) false n suffix.
Proof.
  induction 1 as [|c l Hc _ IH]; [done|].
  cbn [app search]. rewrite rmatch_first_char; [done|].
  intros tl [= ->]. done.
Qed.

Lemma search_nothing rs n tail :
  Forall (λ c, c ≠ "<"%char) tail →
  search (seq (RChar "<" :: rs)) false n tail = None.
Proof.
  intros H. rewrite <- (app_nil_r tail), search_bracket_free by done.
  cbn [search]. by rewrite rmatch_first_char.
Qed.

Lemma search_found re ic n suffix y :
  rmatch ic n re Some {| rest := suffix; caps := ∅ |} = Some y →
  search re ic n suffix =
    Some {| m_index := n - length suffix;
            m_end := n - length (rest y);
            m_whole := of_chars (take (length suffix - length (rest y)) suffix);
            m_groups := of_chars <$> caps y |}.
Proof. intros H. destruct suffix; simpl; by rewrite H. Qed.

Lemma bracket_free_Forall s :
  bracket_free s = true → Forall (λ c, c ≠ "<"%char) (chars s).
Proof.
  unfold bracket_free. intros H%forallb_Forall.
  eapply Forall_impl; [exact H|]. intros c Hc%negb_true_iff.
  by apply bool_decide_eq_false in Hc.
Qed.

Lemma exec_at re text pre suffix :
  chars text = pre ++ suffix →
  exec re false text (length pre) = search re false (length (chars text)) suffix.
Proof.
  intros E. unfold exec.
  rewrite (proj2 (Nat.ltb_ge _ _)) by (rewrite E, length_app; lia).
  f_equal. by rewrite E, drop_app_length.
Qed.

(** The loop of [_regexMentions] over a text that holds references to
    ids of the kind of the pattern finds the ids, in their order. *)
Lemma regexMentions_loop_references sigil letter text parts tail pre fuel acc :
  Forall (λ part, bracket_free part.1 = true ∧ id_of_kind letter part.2 = true) parts →
  bracket_free tail = true →
  chars text = pre ++ chars (with_references sigil parts tail) →
  (length (chars (with_references sigil parts tail)) < fuel)%nat →
  regexMentions_loop (id_pattern sigil letter) text fuel (length pre) acc =
    Some (acc ++ (Some <$> parts.*2)).
Proof.
  intros Hparts Htail. revert pre fuel acc.
  induction Hparts as [|[before id] parts [Hb Hid] _ IH]; intros pre fuel acc Htext Hfuel.
  - destruct fuel as [|fuel]; [lia|]. cbn [regexMentions_loop with_references] in *.
    rewrite (exec_at _ _ _ _ Htext). unfold id_pattern.
    rewrite search_nothing by by apply bracket_free_Forall.
    by rewrite app_nil_r.
  - destruct fuel as [|fuel]; [lia|]. cbn [regexMentions_loop with_references] in *.
    rewrite !chars_app in Htext, Hfuel. simpl in Hb, Hid.
    rewrite (exec_at _ _ _ _ Htext). unfold id_pattern at 1.
    rewrite search_bracket_free by by apply bracket_free_Forall.
    set (rest0 := chars (with_references sigil parts tail)) in *.
    change (seq (RChar "<" :: ?rs)) with (id_pattern sigil letter).
    rewrite (search_found _ _ _ _ _ (rmatch_reference sigil letter id _ rest0 ∅ Hid)).
    cbn [m_end m_groups rest caps].
    rewrite insert_empty, map_fmap_singleton, lookup_singleton_eq, of_chars_chars.
    replace (length (chars text) - length rest0)
      with (length (pre ++ chars before ++ chars (reference sigil id))).
    2:{ rewrite Htext, !length_app. lia. }
    rewrite IH.
    + cbn [fmap list_fmap]. simpl. by rewrite <- app_assoc.
    + by rewrite Htext, <- !app_assoc.
    + rewrite !length_app in Hfuel. rewrite chars_reference in Hfuel. simpl in Hfuel. lia.
Qed.

(** Where the pattern of a kind matches, the text continues with a
    reference to an id of the kind, and the group is the id. *)
Lemma rmatch_id_Some sigil letter n l cs y :
  rmatch false n (id_pattern sigil letter) Some {| rest := l; caps := cs |} = Some y →
  ∃ id, id_of_kind letter id = true ∧
        l = chars (reference sigil id) ++ rest y ∧
        caps y = <[1 := chars id]> cs.
Proof.
  intros H.
  assert (∃ tl, l = "<"%char :: sigil :: letter :: tl) as [tl ->].
  { unfold id_pattern in H.
    destruct l as [|c0 l]; [done|]. rewrite rmatch_char_cons, same_char_exact in H.
    case_bool_decide; [subst c0|done].
    destruct l as [|c1 l]; [done|]. rewrite rmatch_char_cons, same_char_exact in H.
    case_bool_decide; [subst c1|done].
    rewrite rmatch_seq_cons in H. cbn [rmatch rest caps] in H.
    destruct l as [|c2 l]; [done|]. rewrite rmatch_char_cons, same_char_exact in H.
    case_bool_decide; [subst c2|done]. by eexists. }
  rewrite rmatch_id in H. case_bool_decide as Hrun; [done|].
  pose proof (run_split Spec.alnum tl) as Hsplit.
  destruct (after_run Spec.alnum tl) as [|d tl']; [done|].
  case_bool_decide; [subst d|done]. injection H as <-.
  exists (of_chars (letter :: run Spec.alnum tl)). cbn [rest caps].
  rewrite chars_reference, chars_of_chars. split; [|split; [|done]].
  - unfold id_of_kind. rewrite chars_of_chars.
    pose proof (run_Forall Spec.alnum tl) as Hall.
    destruct (run Spec.alnum tl) as [|d r]; [done|].
    rewrite bool_decide_eq_true_2 by done. cbn [andb].
    apply forallb_forall. intros c Hc%list_elem_of_In.
    by apply (proj1 (Forall_forall _ _) Hall).
  - rewrite Hsplit at 1. cbn [app]. by rewrite <- app_assoc.
Qed.

Lemma search_id_Some sigil letter n suffix mt :
  search (id_pattern sigil letter) false n suffix = Some mt →
  ∃ id before after,
    m_groups mt !! 1 = Some id ∧ id_of_kind letter id = true ∧
    suffix = before ++ chars (reference sigil id) ++ after.
Proof.
  induction suffix as [|c suffix IH]; cbn [search].
  - destruct (rmatch _ _ _ _ _) as [y|] eqn:E; [|done].
    apply rmatch_id_Some in E as (id & _ & E & _). rewrite chars_reference in E. done.
  - destruct (rmatch _ _ _ _ _) as [y|] eqn:E.
    + intros [= <-]. apply rmatch_id_Some in E as (id & Hid & E & Hc).
      exists id, [], (rest y). cbn [m_groups]. rewrite Hc, insert_empty,
        map_fmap_singleton, lookup_singleton_eq, of_chars_chars. done.
    + intros (id & before & after & ? & ? & ->)%IH.
      by exists id, (c :: before), after.
Qed.

(** Everything the loop adds is an id of the kind whose reference is in
    the text. *)
Lemma regexMentions_loop_sound sigil letter text fuel i acc found :
  regexMentions_loop (id_pattern sigil letter) text fuel i acc = Some found →
  ∃ ids, found = acc ++ (Some <$> ids) ∧
         Forall (λ id, id_of_kind letter id = true ∧
                       ∃ before after,
                         chars text = before ++ chars (reference sigil id) ++ after) ids.
Proof.
  revert i acc. induction fuel as [|fuel IH]; intros i acc; [done|].
  cbn [regexMentions_loop].
  destruct (exec _ _ _ _) as [mt|] eqn:E.
  - intros (ids & -> & Hids)%IH.
    unfold exec in E. destruct (_ <? _)%nat; [done|].
    apply search_id_Some in E as (id & before & after & -> & Hid & Hdrop).
    exists (id :: ids). split; [by rewrite <- app_assoc|].
    constructor; [|done]. split; [done|].
    exists (take i (chars text) ++ before), after.
    by rewrite <- app_assoc, <- Hdrop, take_drop.
  - intros [= <-]. exists []. by rewrite app_nil_r.
Qed.

Context {Msg Res : Type}.
Implicit Types m : Message Msg Res.

(** X2. [usersMentioned] and [channelsMentioned] return nothing but ids
    of their kind that are referred to in the text: each element is a
    [U] (a [C]) followed by letters and digits, and the text holds
    [<@id>] (or [<#id>]). *)
Theorem mentioned_ids_sound m :
  (∀ found, usersMentioned m = Some found →
     ∃ ids, found = Some <$> ids ∧
       Forall (λ id, id_of_kind "U" id = true ∧
                     ∃ text before after,
                       text_of m = Some text ∧
                       chars text = before ++ chars (reference "@" id) ++ after) ids) ∧
  (∀ found, channelsMentioned m = Some found →
     ∃ ids, found = Some <$> ids ∧
       Forall (λ id, id_of_kind "C" id = true ∧
                     ∃ text before after,
                       text_of m = Some text ∧
                       chars text = before ++ chars (reference "#" id) ++ after) ids).
Proof.
  assert (Hundef : ∀ sigil letter fuel i acc found,
            regexMentions_loop (id_pattern sigil letter) "undefined" fuel i acc = Some found →
            found = acc).
  { intros sigil letter fuel. induction fuel as [|fuel IH]; intros i acc found; [done|].
    cbn [regexMentions_loop].
    destruct (exec _ _ _ _) as [mt|] eqn:E; [|by intros [= <-]].
    exfalso. unfold exec in E. destruct (_ <? _)%nat; [done|].
    apply search_id_Some in E as (id & before & after & _ & _ & Hdrop).
    assert (Hin : "<"%char ∈ drop i (chars "undefined")).
    { rewrite Hdrop, chars_reference. set_solver. }
    assert (Hin' : "<"%char ∈ chars "undefined").
    { rewrite <- (take_drop i). apply elem_of_app. by right. }
    clear -Hin'. apply (bool_decide_pack _) in Hin'. by vm_compute in Hin'. }
  split; intros found; unfold usersMentioned, channelsMentioned, _regexMentions;
    (destruct (isMessage m); [|intros [= <-]; by exists []]);
    (destruct (text_of m) as [text|]; cbn [to_string default from_option id];
     [|intros ->%Hundef; by exists []]).
  - change users_pattern with (id_pattern "@" "U").
    intros (ids & -> & Hids)%regexMentions_loop_sound. exists ids. split; [done|].
    eapply Forall_impl; [exact Hids|]. intros id (? & before & after & ?).
    split; [done|]. by exists text, before, after.
  - change channels_pattern with (id_pattern "#" "C").
    intros (ids & -> & Hids)%regexMentions_loop_sound. exists ids. split; [done|].
    eapply Forall_impl; [exact Hids|]. intros id (? & before & after & ?).
    split; [done|]. by exists text, before, after.
Qed.

(** X3. Writing and reading user references agree: on a message whose
    text holds references to user ids, each after text without opening
    bracket, [usersMentioned] gives these ids, in their order. *)
Theorem usersMentioned_round_trip m (parts : list (string * string)) (tail : string) :
  isMessage m = true →
  text_of m = Some (with_references "@" parts tail) →
  Forall (λ part, bracket_free part.1 = true ∧ id_of_kind "U" part.2 = true) parts →
  bracket_free tail = true →
  usersMentioned m = Some (Some <$> parts.*2).
Proof.
  intros Hmsg Htext Hparts Htail. unfold usersMentioned, _regexMentions.
  rewrite Hmsg, Htext. cbn [to_string default from_option id].
  change users_pattern with (id_pattern "@" "U").
  apply (regexMentions_loop_references "@" "U" _ parts tail [] _ []);
    [done|done|done|clear; lia].
Qed.

(** X4. The same for channels: [channelsMentioned] gives the ids of the
    channel references of the text, in their order. *)
Theorem channelsMentioned_round_trip m (parts : list (string * string)) (tail : string) :
  isMessage m = true →
  text_of m = Some (with_references "#" parts tail) →
  Forall (λ part, bracket_free part.1 = true ∧ id_of_kind "C" part.2 = true) parts →
  bracket_free tail = true →
  channelsMentioned m = Some (Some <$> parts.*2).
Proof.
  intros Hmsg Htext Hparts Htail. unfold channelsMentioned, _regexMentions.
  rewrite Hmsg, Htext. cbn [to_string default from_option id].
  change channels_pattern with (id_pattern "#" "C").
  apply (regexMentions_loop_references "#" "C" _ parts tail [] _ []);
    [done|done|done|clear; lia].
Qed.

End References.

(** ** Broadcast markers *)

Section Markers.
Import Str RegExp Patterns Mentions Forward Render.

(** A search succeeds exactly when the pattern matches at some position
    of the text from the current one on. *)
Lemma search_is_Some re ic n suffix :
  is_Some (search re ic n suffix) ↔
  ∃ i, is_Some (rmatch ic n re Some {| rest := drop i suffix; caps := ∅ |}).
Proof.
  induction suffix as [|c suffix IH]; cbn [search].
  - destruct (rmatch ic n re Some {| rest := []; caps := ∅ |}) eqn:E.
    + split; [|eauto]. intros _. exists 0. by rewrite drop_0, E.
    + split; [by intros [? ?]|]. intros [i Hi]. by rewrite drop_nil, E in Hi.
  - destruct (rmatch ic n re Some {| rest := c :: suffix; caps := ∅ |}) eqn:E.
    + split; [|eauto]. intros _. exists 0. by rewrite drop_0, E.
    + rewrite IH. split.
      * intros [i Hi]. by exists (S i).
      * intros [[|i] Hi]; [by rewrite drop_0, E in Hi|]. by exists i.
Qed.

(** Whether the loop of [_regexMentions] finds anything is decided by
    the first search. *)
Lemma regexMentions_loop_first re text fuel :
  advances re →
  (length (chars text) < fuel)%nat →
  ∃ found, regexMentions_loop re text fuel 0 [] = Some found ∧
           (0 <? length found)%nat = bool_decide (is_Some (exec re false text 0)).
Proof.
  intros Hadv Hfuel. destruct fuel as [|fuel]; [lia|]. cbn [regexMentions_loop].
  destruct (exec re false text 0) as [mt|] eqn:E.
  - apply exec_bounds in E as (? & ? & ?); [|done].
    destruct (regexMentions_loop_total re text fuel (m_end mt) ([] ++ [m_groups mt !! 1]) Hadv)
      as [found ->]; [lia|].
    eexists. split; [done|]. by rewrite bool_decide_eq_true_2.
  - exists []. split; [done|]. rewrite bool_decide_eq_false_2; [done|]. by intros [? ?].
Qed.

Lemma occurs_in_drop needle text :
  occurs_in needle text ↔ ∃ i after, drop i text = needle ++ after.
Proof.
  split.
  - intros (before & after & ->). exists (length before), after.
    by rewrite drop_app_length.
  - intros (i & after & E). exists (take i text), after. by rewrite <- E, take_drop.
Qed.

(** The pattern of [everyoneMentioned] is found where the text holds the
    marker, as it is written. *)
Lemma exec_everyone text :
  is_Some (exec everyone_pattern false text 0) ↔
  occurs_in (chars "<!everyone>") (chars text).
Proof.
  rewrite exec_start. change everyone_pattern with (lits (chars "<!everyone>")).
  rewrite search_lits, occurs_in_drop. split.
  - intros [i [after E]]. exists i, after. by apply strip_lits_exact.
  - intros (i & after & E). exists i, after. by apply strip_lits_exact.
Qed.

Lemma after_run_stop p l :
  (∃ d, d ∈ l ∧ p d = false) ↔ ∃ d tl, after_run p l = d :: tl.
Proof.
  induction l as [|c l IH]; simpl.
  - split; [intros (d & Hd & _); by apply elem_of_nil in Hd|by intros (? & ? & ?)].
  - destruct (p c) eqn:Hc.
    + rewrite <- IH. split.
      * intros (d & [->|Hd]%elem_of_cons & Hp); [congruence|eauto].
      * intros (d & Hd & Hp). exists d. split; [by right|done].
    + split; [eauto|]. intros _. exists c. split; [by left|done].
Qed.

Lemma after_run_head p l d tl : after_run p l = d :: tl → p d = false.
Proof.
  induction l as [|c l IH]; simpl; [done|].
  destruct (p c) eqn:Hc; [done|]. by intros [= <- _].
Qed.

(** What the pattern of a marker matches at the start of a text: the
    opening of the marker, and all up to the next closing bracket. *)
Lemma rmatch_marker word n l :
  is_Some (rmatch false n (marker_pattern word) Some {| rest := l; caps := ∅ |}) ↔
  ∃ inside after, l = chars ("<!" +:+ word) ++ inside ++ ">"%char :: after.
Proof.
  unfold marker_pattern. rewrite rmatch_chars_then. cbn [rest caps].
  set (p := λ d, xorb true (existsb (λ a, same_char false a d) [">"%char])).
  assert (Hp : ∀ d, p d = false ↔ d = ">"%char).
  { intros d. unfold p. simpl. rewrite same_char_exact. case_bool_decide; naive_solver. }
  rewrite chars_app.
  destruct (strip_lits false (chars "<!") l) as [l1|] eqn:E1.
  2:{ split; [by intros [? ?]|]. intros (inside & after & ->).
      rewrite <- app_assoc in E1. by rewrite (proj2 (strip_lits_exact _ _ _) eq_refl) in E1. }
  apply strip_lits_exact in E1 as ->.
  rewrite rmatch_seq_cons. cbn [rmatch]. cbn [rest caps].
  rewrite <- (app_nil_r (RChar <$> chars word)), rmatch_chars_then. cbn [rest caps].
  destruct (strip_lits false (chars word) l1) as [l2|] eqn:E2.
  2:{ split; [by intros [? ?]|]. intros (inside & after & E).
      rewrite <- !app_assoc in E. apply app_inv_head in E. subst l1.
      by rewrite (proj2 (strip_lits_exact _ _ _) eq_refl) in E2. }
  apply strip_lits_exact in E2 as ->.
  change (rmatch false n (seq []) ?k ?x) with (k x). cbn beta. cbn [rest caps].
  rewrite rmatch_seq_cons. cbn [rmatch groups rest caps].
  change (step (λ d, xorb true (existsb (λ a, same_char false a d) [">"%char])))
    with (step p).
  rewrite repeat_greedy_run; [| |lia|cbn [rest]; lia].
  - rewrite (bool_decide_eq_false_2 (0 = 1)) by done. cbn [andb rest caps].
    destruct (after_run p l2) as [|d tl] eqn:E.
    + rewrite rmatch_first_char by done. split; [by intros [? ?]|].
      intros (inside & after & E'). rewrite <- !app_assoc in E'.
      do 2 apply app_inv_head in E'. subst l2.
      assert (∃ d tl, after_run p (inside ++ ">"%char :: after) = d :: tl) as (? & ? & ?).
      { apply after_run_stop. exists ">"%char. split; [apply elem_of_app; right; by left|by apply Hp]. }
      congruence.
    + pose proof (after_run_head _ _ _ _ E) as Hd. apply Hp in Hd. subst d.
      rewrite rmatch_char_cons, same_char_exact, bool_decide_eq_true_2 by done.
      split; [|by eauto]. intros _. exists (run p l2), tl.
      rewrite <- !app_assoc. do 2 f_equal. rewrite <- E. apply run_split.
  - right. intros [l' cs'] d tl Hy Hd. simpl in Hy. subst l'.
    rewrite rmatch_char_cons, same_char_exact.
    case_bool_decide; [|done]. subst d. by rewrite (proj2 (Hp _) eq_refl) in Hd.
Qed.

Lemma exec_marker word text :
  is_Some (exec (marker_pattern word) false text 0) ↔ marker_in word (chars text).
Proof.
  rewrite exec_start, search_is_Some. unfold marker_in. split.
  - intros [i (inside & after & E)%rmatch_marker].
    exists (take i (chars text)), inside, after. by rewrite <- E, take_drop.
  - intros (before & inside & after & E). exists (length before).
    apply rmatch_marker. exists inside, after. by rewrite E, drop_app_length.
Qed.

Context {Msg Res : Type}.
Implicit Types m : Message Msg Res.

(** A message method that counts the matches of a pattern says whether
    the pattern is found in the text of the message. *)
Lemma regexMentions_found m re :
  advances re →
  ∃ found, _regexMentions m re = Some found ∧
           (0 <? length found)%nat =
             isMessage m && bool_decide (is_Some (exec re false (to_string (text_of m)) 0)).
Proof.
  intros Hadv. unfold _regexMentions. destruct (isMessage m).
  - destruct (regexMentions_loop_first re (to_string (text_of m))
                (S (length (chars (to_string (text_of m))))) Hadv) as (found & -> & Hf); [lia|].
    by exists found.
  - by exists [].
Qed.

(** X5. [everyoneMentioned] answers, and it is true exactly for a message
    whose text holds [<!everyone>] as it is written; [channelMentioned]
    and [hereMentioned] answer, and are true exactly for a message whose
    text holds [<!channel], respectively [<!here], with a closing
    bracket somewhere after it. *)
Theorem broadcast_markers m :
  ∃ everyone channel here,
    everyoneMentioned m = Some everyone ∧
    channelMentioned m = Some channel ∧
    hereMentioned m = Some here ∧
    (everyone = true ↔
     isMessage m = true ∧ occurs_in (chars "<!everyone>") (chars (to_string (text_of m)))) ∧
    (channel = true ↔
     isMessage m = true ∧ marker_in "channel" (chars (to_string (text_of m)))) ∧
    (here = true ↔
     isMessage m = true ∧ marker_in "here" (chars (to_string (text_of m)))).
Proof.
  unfold everyoneMentioned, channelMentioned, hereMentioned.
  destruct (regexMentions_found m everyone_pattern (advances_seq _ _)) as (f1 & -> & H1).
  destruct (regexMentions_found m channel_pattern (advances_seq _ _)) as (f2 & -> & H2).
  destruct (regexMentions_found m here_pattern (advances_seq _ _)) as (f3 & -> & H3).
  cbn [mbind option_bind]. eexists _, _, _. do 3 (split; [reflexivity|]).
  rewrite H1, H2, H3, !andb_true_iff, !bool_decide_eq_true.
  change channel_pattern with (marker_pattern "channel").
  change here_pattern with (marker_pattern "here").
  by rewrite exec_everyone, !exec_marker.
Qed.

End Markers.

(** ** The message filters *)

Section Filters.
Import Str RegExp Patterns.

Context {Msg Res : Type}.
Implicit Types m : Message Msg Res.

(** Where an anchored pattern matches, the pattern without the anchor
    matches as well. *)
Lemma search_unanchored ic r input :
  is_Some (search (RSeq RBol r) ic (length input) input) →
  is_Some (search r ic (length input) input).
Proof.
  rewrite search_anchored.
  destruct (rmatch ic (length input) r Some _) eqn:E; [|by intros [? ?]].
  intros _. destruct input; cbn [search]; rewrite E; eauto.
Qed.

Lemma test_unanchored ic r input :
  test (RSeq RBol r) ic input = true → test r ic input = true.
Proof. rewrite !test_true. apply search_unanchored. Qed.

Lemma isDirectMention_defined m men :
  isMention m = Some men → is_Some (isDirectMention m).
Proof.
  unfold isDirectMention, isMention, direct_mention_pattern, mention_pattern.
  destruct (isMessage m); [|eauto].
  destruct (spliced (chars (bot_user_id (meta m)))) as [ids|]; [|done].
  cbn [mbind option_bind]. eauto.
Qed.

(** Without a mention there is no direct mention. *)
Lemma not_mention_not_direct m :
  isMention m = Some false → isDirectMention m = Some false.
Proof.
  unfold isDirectMention, isMention, direct_mention_pattern, mention_pattern.
  destruct (isMessage m); [|done].
  destruct (spliced (chars (bot_user_id (meta m)))) as [ids|]; [|done].
  cbn [mbind option_bind]. intros [= H]. f_equal.
  apply not_true_is_false. intros E.
  apply (test_unanchored true (seq ([RChar "<"; RChar "@"] ++ ids ++ [RChar ">"]))) in E.
  enough (true = false) by done. etrans; [symmetry; exact E|exact H].
Qed.

Lemma isAmbient_tests m dm men :
  isDirectMessage m = Ok dm → isMention m = Some men →
  isAmbient m = Some (Ok (isMessage m && negb men && negb dm)).
Proof.
  intros Hdm Hmen. unfold isAmbient. rewrite Hdm, Hmen.
  destruct (isMessage m); [|done]. by destruct men.
Qed.

Lemma isAnyOf_from_found m filters : isAnyOf_from m filters true = Some (Ok true).
Proof. induction filters as [|name filters IH]; [done|]. cbn [isAnyOf_from found_or outcome_bind]. exact IH. Qed.

Lemma isAnyOf_from_tests m filters found dm dmen men :
  isDirectMessage m = Ok dm → isDirectMention m = Some dmen → isMention m = Some men →
  isAnyOf_from m filters found =
    Some (Ok (found ||
              existsb (λ name, String.eqb name "direct_message" && dm
                               || String.eqb name "direct_mention" && dmen
                               || String.eqb name "ambient" && (isMessage m && negb men && negb dm)
                               || String.eqb name "mention" && men) filters)).
Proof.
  intros Hdm Hdmen Hmen. revert found.
  induction filters as [|name filters IH]; intros found.
  { cbn [isAnyOf_from existsb]. by rewrite orb_false_r. }
  cbn [isAnyOf_from existsb].
  rewrite Hdm, Hdmen, Hmen, (isAmbient_tests m dm men Hdm Hmen). cbn [outcome_of].
  destruct found; [exact (isAnyOf_from_found m (name :: filters))|].
  cbn [found_or orb].
  destruct (String.eqb name "direct_message"), dm; cbn [outcome_bind found_or andb orb];
    rewrite ?isAnyOf_from_found; try done;
  destruct (String.eqb name "direct_mention"), dmen; cbn [outcome_bind found_or andb orb];
    rewrite ?isAnyOf_from_found; try done;
  destruct (String.eqb name "ambient"), (isMessage m && negb men && negb _);
    cbn [outcome_bind found_or andb orb]; rewrite ?isAnyOf_from_found; try done;
  destruct (String.eqb name "mention"), men; cbn [outcome_bind found_or andb orb];
    rewrite ?isAnyOf_from_found; try done; by rewrite IH.
Qed.

Lemma isAnyOf_from_app m filters1 filters2 found :
  isAnyOf_from m (filters1 ++ filters2) found =
    outcome_bind (isAnyOf_from m filters1 found) (isAnyOf_from m filters2).
Proof.
  revert found. induction filters1 as [|name filters1 IH]; intros found; [done|].
  cbn [app isAnyOf_from].
  repeat match goal with
         | |- outcome_bind ?x _ = outcome_bind (outcome_bind ?x _) _ =>
             destruct x as [[?|?]|]; cbn [outcome_bind]; [|done|done]
         end.
  apply IH.
Qed.

(** X6. For a bot user id of pattern characters and dots (the ids
    whose patterns [spliced] builds), both tests answer, and a direct
    mention is a mention: where the anchored pattern of
    [isDirectMention] matches, the pattern of [isMention], the same
    without the anchor, matches too. *)
Theorem isDirectMention_isMention m :
  is_Some (spliced (chars (bot_user_id (meta m)))) →
  ∃ direct anywhere,
    isDirectMention m = Some direct ∧ isMention m = Some anywhere ∧
    (direct = true → anywhere = true).
Proof.
  intros [ids Hids].
  unfold isDirectMention, isMention, direct_mention_pattern, mention_pattern.
  rewrite Hids. cbn [mbind option_bind].
  destruct (isMessage m).
  - eexists _, _. split; [done|]. split; [done|]. apply test_unanchored.
  - by exists false, false.
Qed.

(** X7. [isAnyOf] is the disjunction of the named tests: when the three
    tests answer, [isAnyOf] answers, and with true exactly when the
    list names a filter whose test is true. Names other than the four
    filters count for nothing. *)
Theorem isAnyOf_any m filters dm dmen men :
  isDirectMessage m = Ok dm → isDirectMention m = Some dmen → isMention m = Some men →
  ∃ found,
    isAnyOf m filters = Some (Ok found) ∧
    (found = true ↔
       ("direct_message" ∈ filters ∧ dm = true) ∨
       ("direct_mention" ∈ filters ∧ dmen = true) ∨
       ("ambient" ∈ filters ∧ isAmbient m = Some (Ok true)) ∨
       ("mention" ∈ filters ∧ men = true)).
Proof.
  intros Hdm Hdmen Hmen. eexists. split.
  { unfold isAnyOf. by apply isAnyOf_from_tests. }
  rewrite (isAmbient_tests m dm men Hdm Hmen). cbn [orb].
  rewrite existsb_exists. split.
  - intros (name & Hin%list_elem_of_In & H).
    repeat apply orb_prop in H as [H|H]; apply andb_prop in H as [->%String.eqb_eq H].
    + left. done.
    + right. left. done.
    + right. right. left. split; [done|]. by rewrite H.
    + right. right. right. done.
  - intros [[Hin ->]|[[Hin ->]|[[Hin [= ->]]|[Hin ->]]]];
      eexists; (split; [apply list_elem_of_In, Hin|]); cbn;
      rewrite ?orb_true_r; done.
Qed.

(** X8. Every message event is a mention, a direct message or ambient:
    for a message with a channel id and a bot user id that gives a
    pattern, a list that names these three filters is matched, in any
    order and whatever else it names. *)
Theorem isAnyOf_exhaustive m filters :
  isMessage m = true →
  is_Some (channel_id (meta m)) →
  is_Some (spliced (chars (bot_user_id (meta m)))) →
  "mention" ∈ filters → "direct_message" ∈ filters → "ambient" ∈ filters →
  isAnyOf m filters = Some (Ok true).
Proof.
  intros Hmsg [c Hc] [ids Hids] H1 H2 H3.
  assert (∃ dm, isDirectMessage m = Ok dm) as [dm Hdm].
  { unfold isDirectMessage. rewrite Hmsg, Hc. eauto. }
  assert (∃ men, isMention m = Some men) as [men Hmen].
  { unfold isMention, mention_pattern. rewrite Hmsg, Hids. cbn. eauto. }
  destruct (isDirectMention_defined m men Hmen) as [dmen Hdmen].
  unfold isAnyOf. rewrite (isAnyOf_from_tests m filters false dm dmen men) by done.
  do 2 f_equal. cbn [orb]. apply existsb_exists. rewrite Hmsg.
  destruct men; [|destruct dm].
  - exists "mention". split; [by apply list_elem_of_In|]. cbn. by rewrite ?orb_true_r.
  - exists "direct_message". split; [by apply list_elem_of_In|]. done.
  - exists "ambient". split; [by apply list_elem_of_In|]. cbn. by rewrite ?orb_true_r.
Qed.

(** X9. An ambient message is nothing else: when [isAmbient] is true,
    the event is a message and [isMention], [isDirectMention] and
    [isDirectMessage] are all false. *)
Theorem isAmbient_excludes m :
  isAmbient m = Some (Ok true) →
  isMessage m = true ∧ isMention m = Some false ∧ isDirectMention m = Some false ∧
  isDirectMessage m = Ok false.
Proof.
  unfold isAmbient. destruct (isMessage m) eqn:Hmsg; [|done].
  destruct (isMention m) as [[|]|] eqn:Hmen; try done.
  destruct (isDirectMessage m) as [[|]|]; try done. intros _.
  repeat split. by apply not_mention_not_direct.
Qed.

(** X10. [isAnyOf] stops testing once a filter has matched: a list
    that begins with a matched list is matched, whatever follows, also
    where a later test would throw; and an exception thrown within the
    beginning is the outcome of the whole. *)
Theorem isAnyOf_prefix m filters more :
  (isAnyOf m filters = Some (Ok true) → isAnyOf m (filters ++ more) = Some (Ok true)) ∧
  (∀ e, isAnyOf m filters = Some (Throw e) → isAnyOf m (filters ++ more) = Some (Throw e)) ∧
  (isAnyOf m filters = Some (Ok false) → isAnyOf m (filters ++ more) = isAnyOf m more).
Proof.
  unfold isAnyOf. rewrite isAnyOf_from_app.
  repeat split; [intros ->|intros e ->|intros ->]; cbn [outcome_bind]; [|done|done].
  apply isAnyOf_from_found.
Qed.

(** X11. An event that is no message event passes no filter and
    mentions nothing, and no method throws on it: also without a
    channel id, without a text, and with a bot user id that gives no
    pattern. *)
Theorem not_a_message m :
  isMessage m = false →
  isDirectMention m = Some false ∧ isMention m = Some false ∧
  isDirectMessage m = Ok false ∧ isAmbient m = Some (Ok false) ∧
  (∀ filters, isAnyOf m filters = Some (Ok false)) ∧
  usersMentioned m = Some [] ∧ channelsMentioned m = Some [] ∧
  subteamGroupsMentioned m = Some [] ∧
  everyoneMentioned m = Some false ∧ channelMentioned m = Some false ∧
  hereMentioned m = Some false ∧
  linksMentioned m = Some (Ok []) ∧ stripDirectMention m = Some (Ok "").
Proof.
  intros Hmsg.
  assert (Hd : isDirectMention m = Some false) by (unfold isDirectMention; by rewrite Hmsg).
  assert (Hm : isMention m = Some false) by (unfold isMention; by rewrite Hmsg).
  assert (Hdm : isDirectMessage m = Ok false) by (unfold isDirectMessage; by rewrite Hmsg).
  split; [done|]. split; [done|]. split; [done|].
  split; [unfold isAmbient; by rewrite Hmsg|].
  split.
  { intros filters. unfold isAnyOf.
    rewrite (isAnyOf_from_tests m filters false false false false) by done.
    do 2 f_equal. cbn [orb]. rewrite Hmsg.
    induction filters as [|name filters IH]; [done|]. cbn [existsb].
    by rewrite !andb_false_r, IH. }
  unfold usersMentioned, channelsMentioned, subteamGroupsMentioned, everyoneMentioned,
    channelMentioned, hereMentioned, _regexMentions, linksMentioned, stripDirectMention.
  rewrite Hmsg. repeat split; done.
Qed.

End Filters.

(** ** Cancelling, and routing without an application *)

Section Cancelling.

Context {Msg Res : Type}.
Implicit Types m : Message Msg Res.


(** X13. A message that no application was attached to cannot route:
    on a message as the constructor makes it, [route], [cancel] and
    [attachOverrideRoute] throw; once [attachSlackApp] has run, none of
    them throws, and the key of the conversation is the one the
    constructor made. *)
Theorem routing_needs_slackapp type body meta key s secs now :
  (∃ e, route (new_Message (Msg:=Msg) (Res:=Res) type body meta) key s secs now = Throw e) ∧
  (∃ e, cancel (new_Message (Msg:=Msg) (Res:=Res) type body meta) = Throw e) ∧
  (∃ e, attachOverrideRoute (new_Message (Msg:=Msg) (Res:=Res) type body meta) key s = Throw e) ∧
  ∀ app : SlackApp Msg Res,
    (∃ m' record,
       route (attachSlackApp (new_Message type body meta) app) key s secs now
       = Ok (m', [StoreSet (conversation_id (new_Message (Msg:=Msg) (Res:=Res) type body meta))
                    record])) ∧
    cancel (attachSlackApp (new_Message type body meta) app)
      = Ok [StoreDel (conversation_id (new_Message (Msg:=Msg) (Res:=Res) type body meta))] ∧
    (∃ m', attachOverrideRoute (attachSlackApp (new_Message type body meta) app) key s = Ok m').
Proof.
  split; [by eexists|]. split; [by eexists|]. split; [by eexists|].
  intros app. split; [by eexists _, _|]. split; [done|].
  unfold attachOverrideRoute. cbn [_slackapp attachSlackApp].
  destruct (getRoute app key); by eexists.
Qed.

End Cancelling.

(** ** What is sent *)

Section Sending.

Lemma processInput_not_string input random s : _processInput input random ≠ JStr s.
Proof.
  unfold _processInput. destruct input as [| |b|n|s'|items|fields]; try done.
  destruct (floor _) as [i|]; [|done].
  destruct (i <? 0)%Z; [done|].
  by destruct (default JUndefined (items !! _)).
Qed.

Lemma processInput_empty random : _processInput (JArr []) random = JUndefined.
Proof.
  unfold _processInput. cbn [length].
  destruct (floor _) as [i|]; [|done].
  destruct (i <? 0)%Z; [done|]. by rewrite lookup_nil.
Qed.

Context {Msg Res : Type}.
Implicit Types m : Message Msg Res.

(** X14. Nothing is ever sent as a bare string: whatever the input and
    the random draw, [_processInput] does not return a string, so the
    JSON body of the request of [respond] is not one; and an empty
    array is normalized to [undefined]. *)
Theorem processInput_never_string :
  (∀ input random s, _processInput input random ≠ JStr s) ∧
  (∀ m responseUrl input random s, json (respond m responseUrl input random) ≠ JStr s) ∧
  (∀ random, _processInput (JArr []) random = JUndefined).
Proof.
  split; [apply processInput_not_string|].
  split; [intros; apply processInput_not_string|apply processInput_empty].
Qed.

(** X15. What [say] posts for a text is the text with the token and the
    channel of the meta and nothing else; for an empty array or no
    input at all it is the token and the channel alone, a message
    without text. *)
Theorem say_text m random :
  (∀ s, say m (JStr s) random =
          {[ "text" := JStr s;
             "token" := of_field (js_or (bot_token (meta m)) (app_token (meta m)));
             "channel" := of_field (channel_id (meta m)) ]}) ∧
  say m (JArr []) random =
    {[ "token" := of_field (js_or (bot_token (meta m)) (app_token (meta m)));
       "channel" := of_field (channel_id (meta m)) ]} ∧
  say m JUndefined random =
    {[ "token" := of_field (js_or (bot_token (meta m)) (app_token (meta m)));
       "channel" := of_field (channel_id (meta m)) ]}.
Proof.
  unfold say. rewrite processInput_empty. unfold assign. cbn [_processInput own_props].
  split; [intros s|split]; apply map_eq; intros k; rewrite !lookup_union;
    (destruct (decide (k = "token")) as [->|?]; [by simplify_map_eq|]);
    (destruct (decide (k = "channel")) as [->|?]; [by simplify_map_eq|]);
    (destruct (decide (k = "text")) as [->|?]; by simplify_map_eq).
Qed.

(** X16. The function [respond] gives to the request throws in one
    case only, a missing body without transport error; in every other
    case the callback is called. *)
Theorem respond_done_throws err body :
  (∃ e, respond_done err body = Throw e) ↔
  truthy err = false ∧ (body = JNull ∨ body = JUndefined).
Proof.
  unfold respond_done. destruct (truthy err).
  { split; [by intros [? ?]|by intros [? _]]. }
  destruct body as [| |b|n|s|items|fields]; cbn [get_prop].
  - split; [auto|by eexists].
  - split; [auto|by eexists].
  - split; [by intros [? ?]|by intros [_ [?|?]]].
  - split; [by intros [? ?]|by intros [_ [?|?]]].
  - cbn [truthy]. destruct (Str.includes s rateLimit);
      (split; [by intros [? ?]|by intros [_ [?|?]]]).
  - split; [by intros [? ?]|by intros [_ [?|?]]].
  - destruct (truthy _); (split; [by intros [? ?]|by intros [_ [?|?]]]).
Qed.

(** X17. The data of a success is the body without its [ok] field:
    when the callback receives data, there was no transport error, the
    body had no truthy [error], the data has no [ok] and has every
    other field as the body has it. *)
Theorem respond_done_data err body data :
  respond_done err body = Ok (CallbackData data) →
  truthy err = false ∧
  (∃ error, get_prop body "error" = Ok error ∧ truthy error = false) ∧
  get_prop data "ok" = Ok JUndefined ∧
  ∀ name, name ≠ "ok" → get_prop data name = get_prop body name.
Proof.
  unfold respond_done. destruct (truthy err); [done|].
  destruct (get_prop body "error") as [error|e] eqn:Herr; [|done].
  destruct (truthy error) eqn:Ht; [done|].
  assert (H : Ok (CallbackData (delete_prop body "ok")) = Ok (CallbackData data) →
              false = false ∧ (∃ error0, Ok error = Ok error0 ∧ truthy error0 = false) ∧
              get_prop data "ok" = Ok JUndefined ∧
              ∀ name, name ≠ "ok" → get_prop data name = get_prop body name).
  { intros [= <-]. split; [done|]. split; [by exists error|].
    destruct body as [| |b|n|s|items|fields]; try done.
    cbn [delete_prop get_prop]. rewrite lookup_delete_eq. split; [done|].
    intros name Hne. by rewrite lookup_delete_ne. }
  destruct body as [| |b|n|s|items|fields]; try exact H.
  destruct (Str.includes s rateLimit); [done|exact H].
Qed.

End Sending.

(** ** Direct mentions and their prefix *)

Section Prefix.
Import Str RegExp Patterns Spec.

Context {Msg Res : Type}.
Implicit Types m : Message Msg Res.

Lemma isDirectMention_begins m text :
  isMessage m = true →
  text_of m = Some text →
  literal_text (bot_user_id (meta m)) = true →
  begins_with_ci (mention_token (bot_user_id (meta m))) text →
  isDirectMention m = Some true.
Proof.
  intros Hmsg Htext Hlit Hb. unfold isDirectMention.
  rewrite Hmsg, Htext, (direct_mention_pattern_literal _ Hlit). cbn [mbind option_bind].
  f_equal. cbn [to_string default]. apply test_true.
  by rewrite search_anchored_lits, strip_lits_begins.
Qed.

(** X18. [stripDirectMention] strips nothing but a direct mention: on
    a message with a text, for a bot user id of pattern characters,
    when the text returned differs from the text of the message,
    [isDirectMention] is true. *)
Theorem stripped_is_direct_mention m text out :
  isMessage m = true →
  text_of m = Some text →
  literal_text (bot_user_id (meta m)) = true →
  stripDirectMention m = Some (Ok out) →
  out ≠ text →
  isDirectMention m = Some true.
Proof.
  intros Hmsg Htext Hlit Hout Hne.
  rewrite (stripDirectMention_message m text) in Hout by done.
  destruct (strip_lits false _ (chars text)) as [after|] eqn:E; [|congruence].
  apply strip_lits_exact in E.
  apply (isDirectMention_begins m text); [done..|].
  exists (chars (mention_token (bot_user_id (meta m)))), after. split; [done|].
  apply Forall2_same_length_lookup. split; [done|]. by intros i a d -> [= ->].
Qed.

(** X19. The converse fails on the case of the letters: [isDirectMention]
    compares without regard to case, [stripDirectMention] does not. On
    a text that begins with the mention token written in another case,
    [isDirectMention] is true and [stripDirectMention] returns the text
    as it is, with the token. *)
Theorem direct_mention_not_stripped m text (p tail : list ascii) :
  isMessage m = true →
  text_of m = Some text →
  literal_text (bot_user_id (meta m)) = true →
  chars text = p ++ tail →
  Forall2 same_ignoring_case (chars (mention_token (bot_user_id (meta m)))) p →
  p ≠ chars (mention_token (bot_user_id (meta m))) →
  isDirectMention m = Some true ∧ stripDirectMention m = Some (Ok text).
Proof.
  intros Hmsg Htext Hlit Hp Hci Hne. split.
  - apply (isDirectMention_begins m text); [done..|]. by exists p, tail.
  - apply stripDirectMention_unchanged; [done..|].
    intros after E. rewrite Hp in E. apply Hne.
    apply app_inj_1 in E as [? _]; [done|]. symmetry. by eapply Forall2_length.
Qed.

End Prefix.

(** ** References to links *)

Section LinkReferences.
Import Str RegExp Patterns Render.

Lemma chars_link_reference url label :
  chars (link_reference url label) =
    "<"%char :: (chars url ++ chars (from_option (λ l, "|" +:+ l) "" label)) ++ [">"%char].
Proof. unfold link_reference. simpl. by rewrite !chars_app, <- app_assoc. Qed.

Lemma url_like_chars url :
  url_like url = true →
  chars url ≠ [] ∧ Forall (λ c, link_char c = true) (chars url) ∧ "|"%char ∉ chars url.
Proof.
  unfold url_like. intros [Hne Hall]%andb_prop. split; [|split].
  - destruct url; [done|]. done.
  - apply forallb_Forall in Hall. eapply Forall_impl; [exact Hall|].
    by intros c [? _]%andb_prop.
  - apply forallb_Forall in Hall. intros Hin.
    apply (proj1 (Forall_forall _ _) Hall) in Hin.
    apply andb_prop in Hin as [_ Hin]. by rewrite bool_decide_eq_true_2 in Hin.
Qed.

Lemma label_like_chars label :
  label_like label = true →
  Forall (λ c, link_char c = true) (chars (from_option (λ l, "|" +:+ l) "" label)) ∧
  (chars (from_option (λ l, "|" +:+ l) "" label) = [] ∨
   ∃ l, chars (from_option (λ l, "|" +:+ l) "" label) = "|"%char :: l).
Proof.
  destruct label as [l|]; cbn [label_like from_option].
  - intros H%forallb_Forall. split; [by constructor|]. right. by eexists.
  - intros _. split; [constructor|by left].
Qed.

(** The text before the first bar, when the bar comes right after a
    text without bar, or when there is none. *)
Lemma before_first_stop sep l r :
  sep ∉ l → (r = [] ∨ ∃ r', r = sep :: r') → before_first sep (l ++ r) = l.
Proof.
  intros Hl Hr. induction l as [|c l IH]; cbn [app before_first].
  - destruct Hr as [->|[r' ->]]; [done|]. cbn [before_first]. by rewrite bool_decide_eq_true_2.
  - rewrite bool_decide_eq_false_2 by (intros ->; apply Hl; by left).
    rewrite IH; [done|]. intros Hin. apply Hl. by right.
Qed.

(** The pattern of [linksMentioned] matches a reference to a link, all
    of it and no more; the group is the url with the label. *)
Lemma rmatch_link_reference url label n rest0 cs :
  url_like url = true → label_like label = true →
  rmatch false n links_pattern Some
    {| rest := chars (link_reference url label) ++ rest0; caps := cs |} =
    Some {| rest := rest0;
            caps := <[1 := chars url ++ chars (from_option (λ l, "|" +:+ l) "" label)]> cs |}.
Proof.
  intros (Hne & Hurl & _)%url_like_chars [Hlabel _]%label_like_chars.
  rewrite chars_link_reference, rmatch_links. cbn [app rest caps].
  rewrite <- app_assoc. cbn [app].
  set (g := chars url ++ chars (from_option (λ l, "|" +:+ l) "" label)).
  assert (Hg : Forall (λ c, link_char c = true) g) by by apply Forall_app.
  destruct (run_app_stop link_char g ">" rest0 Hg eq_refl) as [-> ->].
  rewrite bool_decide_eq_true_2 by done.
  rewrite (bool_decide_eq_false_2 (g = [])).
  2:{ subst g. destruct (chars url); done. }
  cbn [andb negb]. by rewrite bool_decide_eq_true_2.
Qed.

(** The loop of [linksMentioned] over a text that holds references to
    links finds the urls, in their order. *)
Lemma links_loop_references text parts tail pre fuel acc :
  Forall (λ part : string * (string * option string),
            bracket_free part.1 = true ∧ url_like part.2.1 = true ∧
            label_like part.2.2 = true) parts →
  bracket_free tail = true →
  chars text = pre ++ chars (with_links parts tail) →
  (length (chars (with_links parts tail)) < fuel)%nat →
  links_loop text fuel (length pre) acc = Some (Ok (acc ++ ((λ part, part.2.1) <$> parts))).
Proof.
  intros Hparts Htail. revert pre fuel acc.
  induction Hparts as [|[before [url label]] parts (Hb & Hurl & Hlabel) _ IH];
    intros pre fuel acc Htext Hfuel.
  - destruct fuel as [|fuel]; [lia|]. cbn [links_loop with_links] in *.
    rewrite (exec_at _ _ _ _ Htext). unfold links_pattern.
    rewrite search_nothing by by apply bracket_free_Forall.
    by rewrite app_nil_r.
  - destruct fuel as [|fuel]; [lia|]. cbn [links_loop with_links] in *.
    rewrite !chars_app in Htext, Hfuel. simpl in Hb, Hurl, Hlabel.
    rewrite (exec_at _ _ _ _ Htext). unfold links_pattern at 1.
    rewrite search_bracket_free by by apply bracket_free_Forall.
    set (rest0 := chars (with_links parts tail)) in *.
    change (seq (RChar "<" :: ?rs)) with links_pattern.
    rewrite (search_found _ _ _ _ _
               (rmatch_link_reference url label _ rest0 ∅ Hurl Hlabel)).
    cbn [m_end m_groups rest caps].
    rewrite insert_empty, map_fmap_singleton, lookup_singleton_eq, chars_of_chars.
    destruct (url_like_chars url Hurl) as (_ & _ & Hbar).
    destruct (label_like_chars label Hlabel) as [_ Hstop].
    rewrite (before_first_stop _ _ _ Hbar Hstop), of_chars_chars.
    replace (length (chars text) - length rest0)
      with (length (pre ++ chars before ++ chars (link_reference url label))).
    2:{ rewrite Htext, !length_app. lia. }
    rewrite IH.
    + cbn [fmap list_fmap]. simpl. by rewrite <- app_assoc.
    + by rewrite Htext, <- !app_assoc.
    + rewrite !length_app in Hfuel. rewrite chars_link_reference in Hfuel.
      simpl in Hfuel. lia.
Qed.

Context {Msg Res : Type}.
Implicit Types m : Message Msg Res.

(** X20. Writing and reading links agree: on a message whose text
    holds references to links, with or without a label, each after
    text without opening bracket, [linksMentioned] gives the urls, in
    their order and without the labels. *)
Theorem linksMentioned_round_trip m (parts : list (string * (string * option string)))
    (tail : string) :
  isMessage m = true →
  text_of m = Some (with_links parts tail) →
  Forall (λ part : string * (string * option string),
            bracket_free part.1 = true ∧ url_like part.2.1 = true ∧
            label_like part.2.2 = true) parts →
  bracket_free tail = true →
  linksMentioned m = Some (Ok ((λ part, part.2.1) <$> parts)).
Proof.
  intros Hmsg Htext Hparts Htail. unfold linksMentioned.
  rewrite Hmsg, Htext. cbn [to_string default from_option id].
  apply (links_loop_references _ parts tail [] _ []); [done|done|done|clear; lia].
Qed.

End LinkReferences.

(** ** References to subteams *)

Section Subteams.
Import Str RegExp Patterns Mentions Forward Render.

Lemma step_cons p (k : Cont) d tl cs :
  step p k {| rest := d :: tl; caps := cs |} =
    if p d then k {| rest := tl; caps := cs |} else None.
Proof. reflexivity. Qed.

Lemma step_nil p (k : Cont) cs : step p k {| rest := []; caps := cs |} = None.
Proof. reflexivity. Qed.

(** A greedy quantifier over one-character atoms stops at the longest
    run when what comes next matches there. *)
Lemma repeat_greedy_first p (k : Cont) fuel min x z :
  (min <= length (run p (rest x)))%nat →
  (min + length (rest x) < fuel)%nat →
  k {| rest := after_run p (rest x); caps := caps x |} = Some z →
  repeat_matcher (step p) [] k fuel min None x = Some z.
Proof.
  revert min x. induction fuel as [|fuel IH]; intros min [l cs] Hmin Hfuel Hk; [lia|].
  cbn [repeat_matcher rest caps clear_captures foldr] in *.
  rewrite bool_decide_eq_false_2 by done.
  destruct l as [|c tl]; cbn [run after_run length] in *.
  { rewrite step_nil. assert (min = 0) as -> by lia. done. }
  rewrite step_cons.
  destruct (p c) eqn:Hc; cbn [length rest] in *.
  - rewrite (bool_decide_eq_false_2 (length tl = S (length tl))) by lia.
    rewrite andb_false_r. cbn [fmap option_fmap option_map].
    rewrite (IH (pred min) {| rest := tl; caps := cs |}); cbn [rest caps]; [|lia|lia|done].
    by destruct min.
  - assert (min = 0) as -> by lia. done.
Qed.

(** It gives back one atom when what comes next does not match after
    the longest run and matches one atom before. *)
Lemma repeat_greedy_back p (k : Cont) fuel min l c r cs z :
  Forall (λ d, p d = true) l → p c = true → run p r = [] →
  (min <= length l)%nat →
  (min + length (l ++ c :: r) < fuel)%nat →
  k {| rest := r; caps := cs |} = None →
  k {| rest := c :: r; caps := cs |} = Some z →
  repeat_matcher (step p) [] k fuel min None {| rest := l ++ c :: r; caps := cs |} = Some z.
Proof.
  intros Hl Hc Hr. revert min fuel.
  induction Hl as [|a l Ha _ IH]; intros min fuel Hmin Hfuel Hnone Hsome.
  - cbn [length] in Hmin. assert (min = 0) as -> by lia.
    destruct fuel as [|[|fuel]]; [cbn [app length] in Hfuel; lia..|].
    cbn [app repeat_matcher rest caps clear_captures foldr].
    rewrite bool_decide_eq_false_2 by done. rewrite step_cons, Hc.
    cbn [length rest]. rewrite (bool_decide_eq_false_2 (length r = S (length r))) by lia.
    rewrite andb_false_r. cbn [fmap option_fmap option_map Init.Nat.pred].
    rewrite bool_decide_eq_false_2 by done.
    destruct r as [|d r']; [by rewrite step_nil, Hnone, Hsome|].
    rewrite step_cons. cbn [run] in Hr. destruct (p d); [done|]. by rewrite Hnone, Hsome.
  - destruct fuel as [|fuel]; [lia|].
    cbn [app repeat_matcher rest caps clear_captures foldr].
    rewrite bool_decide_eq_false_2 by done. rewrite step_cons, Ha.
    cbn [length rest]. rewrite (bool_decide_eq_false_2 (length (l ++ c :: r) = S _)) by lia.
    rewrite andb_false_r. cbn [fmap option_fmap option_map].
    rewrite IH; [by destruct min|cbn [length] in Hmin; lia|cbn [app length] in Hfuel; lia|done|done].
Qed.

(** It fails when the run is one atom, at least one is asked for and
    what comes next does not match after it. *)
Lemma repeat_greedy_single p (k : Cont) fuel c r cs :
  p c = true → run p r = [] →
  k {| rest := r; caps := cs |} = None →
  repeat_matcher (step p) [] k fuel 1 None {| rest := c :: r; caps := cs |} = None.
Proof.
  intros Hc Hr Hnone. destruct fuel as [|[|fuel]]; [done| |].
  - cbn [repeat_matcher rest caps clear_captures foldr].
    rewrite bool_decide_eq_false_2 by done. by rewrite step_cons, Hc.
  - cbn [repeat_matcher rest caps clear_captures foldr].
    rewrite bool_decide_eq_false_2 by done. rewrite step_cons, Hc.
    cbn [fmap option_fmap option_map Init.Nat.pred].
    rewrite (bool_decide_eq_false_2 (1 = 0)) by done. cbn [andb].
    rewrite bool_decide_eq_false_2 by done. cbn [rest caps].
    destruct r as [|d r']; [by rewrite step_nil, Hnone|].
    rewrite step_cons. cbn [run] in Hr. destruct (p d); [done|]. by rewrite Hnone.
Qed.

(** What the end of the pattern of [subteamGroupsMentioned] matches:
    the longest run of characters other than the closing bracket, not
    empty, and the closing bracket. *)
Lemma rmatch_label n y :
  rmatch false n (seq [RRepeat 1 None (RClass true [">"%char]); RChar ">"]) Some y =
    match rest y with
    | c :: tl =>
        if bool_decide (c = ">"%char) then None
        else match after_run (λ d, negb (bool_decide (d = ">"%char))) tl with
             | _ :: tl' => Some {| rest := tl'; caps := caps y |}
             | [] => None
             end
    | [] => None
    end.
Proof.
  rewrite rmatch_seq_cons. cbn [rmatch groups rest caps].
  set (p := λ d, xorb true (existsb (λ a, same_char false a d) [">"%char])).
  change (step (λ d, xorb true (existsb (λ a, same_char false a d) [">"%char])))
    with (step p).
  assert (Hp : ∀ d, p d = negb (bool_decide (d = ">"%char))).
  { intros d. destruct d as [[] [] [] [] [] [] [] []]; by vm_compute. }
  rewrite repeat_greedy_run; [| |done|cbn [rest]; lia].
  - rewrite (bool_decide_eq_true_2 (1 = 1)) by done. cbn [andb rest caps].
    destruct y as [[|c tl] cs]; cbn [rest caps run after_run]; [done|].
    rewrite !Hp. destruct (bool_decide (c = ">"%char)); cbn [negb].
    { by rewrite bool_decide_eq_true_2. }
    rewrite bool_decide_eq_false_2 by done.
    rewrite (after_run_ext p _ tl Hp).
    destruct (after_run _ tl) as [|d tl'] eqn:E; [done|].
    rewrite rmatch_char_cons, same_char_exact.
    pose proof (after_run_head _ _ _ _ E) as Hd. apply negb_false_iff in Hd.
    apply bool_decide_eq_true in Hd as ->. by rewrite bool_decide_eq_true_2.
  - right. intros [l' cs'] d tl Hy Hd. simpl in Hy. subst l'.
    rewrite rmatch_char_cons, same_char_exact.
    case_bool_decide; [|done]. subst d. by rewrite Hp, bool_decide_eq_true_2 in Hd.
Qed.

Lemma chars_subteam_reference id label :
  chars (subteam_reference id label) =
    chars "<!subteam^" ++ chars id ++ "|"%char :: chars label ++ [">"%char].
Proof. unfold subteam_reference. by rewrite !chars_app. Qed.

Lemma chars_bare_subteam_reference id :
  chars (bare_subteam_reference id) = chars "<!subteam^" ++ chars id ++ [">"%char].
Proof. unfold bare_subteam_reference. by rewrite !chars_app. Qed.

(** The pattern of [subteamGroupsMentioned] after its opening and the
    letter of the kind: the quantifier over letters and digits, with
    what is left of the pattern as its continuation. *)
Lemma rmatch_subteam n tl cs :
  rmatch false n subteams_pattern Some
    {| rest := chars "<!subteam^" ++ "S"%char :: tl; caps := cs |} =
  repeat_matcher
    (step (λ d, xorb false (existsb (λ a, same_char false a d) alnum_class))) []
    (λ y, rmatch false n (seq [RRepeat 1 None (RClass true [">"%char]); RChar ">"]) Some
            {| rest := rest y;
               caps := <[1 := take (length ("S"%char :: tl) - length (rest y)) ("S"%char :: tl)]>
                         (caps y) |})
    (1 + length tl + 1) 1 None {| rest := tl; caps := cs |}.
Proof.
  unfold subteams_pattern. rewrite rmatch_chars_then. cbn [rest caps].
  rewrite (proj2 (strip_lits_exact _ _ _) eq_refl). reflexivity.
Qed.

Lemma closing_free_Forall s :
  closing_free s = true →
  Forall (λ c, negb (bool_decide (c = ">"%char)) = true) (chars s).
Proof. apply forallb_Forall. Qed.

(** The pattern matches a reference with a label, all of it and no
    more; the group is the id. *)
Lemma rmatch_subteam_reference id label n rest0 cs :
  id_of_kind "S" id = true → closing_free label = true →
  rmatch false n subteams_pattern Some
    {| rest := chars (subteam_reference id label) ++ rest0; caps := cs |} =
    Some {| rest := rest0; caps := <[1 := chars id]> cs |}.
Proof.
  unfold id_of_kind. rewrite chars_subteam_reference.
  destruct (chars id) as [|c [|d body]]; [done|done|].
  intros [Hc Hal]%andb_prop Hlabel%closing_free_Forall.
  apply bool_decide_eq_true in Hc as ->. apply forallb_Forall in Hal.
  rewrite <- !app_assoc. cbn [app].
  change ("S"%char :: d :: body ++ ?r) with ("S"%char :: (d :: body) ++ r).
  rewrite rmatch_subteam.
  set (p := λ d, xorb false (existsb (λ a, same_char false a d) alnum_class)).
  assert (Hp : Forall (λ c, p c = true) (d :: body)).
  { eapply Forall_impl; [exact Hal|]. intros c Hc. unfold p. by rewrite alnum_class_alnum. }
  destruct (run_app_stop p (d :: body) "|" ((chars label ++ [">"%char]) ++ rest0) Hp eq_refl)
    as [Hrun Hafter].
  apply repeat_greedy_first; cbn [rest caps].
  - rewrite Hrun. simpl. lia.
  - lia.
  - rewrite Hafter, rmatch_label. cbn [rest caps].
    rewrite bool_decide_eq_false_2 by done. rewrite <- app_assoc. cbn [app].
    destruct (run_app_stop _ (chars label) ">" rest0 Hlabel eq_refl) as [_ ->].
    do 3 f_equal.
    apply (take_app_length' ("S"%char :: d :: body)).
    repeat (rewrite ?length_app; cbn [length]). clear. lia.
Qed.

(** It matches a reference without label as well, but the group is the
    id without its last character: the quantifier gives this character
    back to the part of the pattern that reads the label. *)
Lemma rmatch_bare_subteam short c n rest0 cs :
  id_of_kind "S" short = true → Spec.alnum c = true →
  rmatch false n subteams_pattern Some
    {| rest := chars (bare_subteam_reference (short +:+ String c "")) ++ rest0; caps := cs |} =
    Some {| rest := rest0; caps := <[1 := chars short]> cs |}.
Proof.
  unfold id_of_kind. rewrite chars_bare_subteam_reference, chars_app.
  change (chars (String c "")) with [c].
  destruct (chars short) as [|c0 [|d body]]; [done|done|].
  intros [Hc Hal]%andb_prop Hlast.
  apply bool_decide_eq_true in Hc as ->. apply forallb_Forall in Hal.
  rewrite <- !app_assoc. cbn [app].
  change ("S"%char :: d :: body ++ ?r) with ("S"%char :: (d :: body) ++ r).
  rewrite rmatch_subteam.
  set (p := λ d, xorb false (existsb (λ a, same_char false a d) alnum_class)).
  assert (Hp : Forall (λ c, p c = true) (d :: body)).
  { eapply Forall_impl; [exact Hal|]. intros c' Hc'. unfold p. by rewrite alnum_class_alnum. }
  apply repeat_greedy_back; [done| | | | | |].
  - unfold p. by rewrite alnum_class_alnum.
  - done.
  - simpl. lia.
  - lia.
  - by rewrite rmatch_label.
  - rewrite rmatch_label. cbn [rest caps after_run].
    rewrite bool_decide_eq_false_2 by (intros ->; by vm_compute in Hlast).
    cbn [negb bool_decide]. rewrite (bool_decide_eq_true_2 (">"%char = ">"%char)) by done.
    cbn [negb]. do 3 f_equal.
    apply (take_app_length' ("S"%char :: d :: body)).
    repeat (rewrite ?length_app; cbn [length]). clear. lia.
Qed.

(** It does not match a reference without label to an id of two
    characters. *)
Lemma rmatch_short_subteam c n rest0 cs :
  Spec.alnum c = true →
  rmatch false n subteams_pattern Some
    {| rest := chars (bare_subteam_reference (String "S" (String c ""))) ++ rest0; caps := cs |}
  = None.
Proof.
  intros Hc. rewrite chars_bare_subteam_reference. rewrite <- !app_assoc.
  change (chars (String "S" (String c ""))) with ["S"%char; c]. cbn [app].
  rewrite rmatch_subteam. apply repeat_greedy_single.
  - by rewrite alnum_class_alnum.
  - done.
  - by rewrite rmatch_label.
Qed.

(** The loop of [_regexMentions], for a pattern that begins with an
    opening bracket, over a text that holds references the pattern
    matches whole, each after text without opening bracket: the loop
    finds the group of each reference, in their order. *)
Lemma regexMentions_loop_rendered {A : Type} rs (ref : A → list ascii) (grp : A → string)
    (ok : A → Prop) text (parts : list (string * A)) tail pre fuel acc :
  (∀ a n rest0, ok a →
     ∃ y, rmatch false n (seq (RChar "<" :: rs)) Some {| rest := ref a ++ rest0; caps := ∅ |}
          = Some y ∧ rest y = rest0 ∧ caps y !! 1 = Some (chars (grp a))) →
  (∀ a, ok a → ref a ≠ []) →
  Forall (λ part, bracket_free part.1 = true ∧ ok part.2) parts →
  bracket_free tail = true →
  chars text = pre ++ foldr (λ part l, chars part.1 ++ ref part.2 ++ l) (chars tail) parts →
  (length (foldr (λ part l, chars part.1 ++ ref part.2 ++ l) (chars tail) parts) < fuel)%nat →
  regexMentions_loop (seq (RChar "<" :: rs)) text fuel (length pre) acc =
    Some (acc ++ ((λ part, Some (grp part.2)) <$> parts)).
Proof.
  intros Hmatch Href Hparts Htail. revert pre fuel acc.
  induction Hparts as [|[before a] parts [Hb Ha] _ IH]; intros pre fuel acc Htext Hfuel.
  - destruct fuel as [|fuel]; [lia|]. cbn [regexMentions_loop foldr] in *.
    rewrite (exec_at _ _ _ _ Htext).
    rewrite search_nothing by by apply bracket_free_Forall.
    by rewrite app_nil_r.
  - destruct fuel as [|fuel]; [lia|]. cbn [regexMentions_loop foldr fst snd] in *.
    rewrite (exec_at _ _ _ _ Htext).
    rewrite search_bracket_free by by apply bracket_free_Forall.
    set (rest0 := foldr _ _ parts) in *.
    destruct (Hmatch a (length (chars text)) rest0 Ha) as (y & Hy & Hrest & Hcaps).
    rewrite (search_found _ _ _ _ _ Hy).
    cbn [m_end m_groups]. rewrite lookup_fmap, Hcaps, Hrest. cbn [fmap option_fmap option_map].
    rewrite of_chars_chars.
    replace (length (chars text) - length rest0)
      with (length (pre ++ chars before ++ ref a)).
    2:{ rewrite Htext, !length_app. lia. }
    rewrite IH.
    + cbn [fmap list_fmap]. simpl. by rewrite <- app_assoc.
    + by rewrite Htext, <- !app_assoc.
    + rewrite !length_app in Hfuel. specialize (Href a Ha).
      destruct (ref a); [done|]. simpl in Hfuel. lia.
Qed.

Lemma subteams_pattern_head : ∃ rs, subteams_pattern = seq (RChar "<" :: rs).
Proof. by eexists. Qed.

Lemma chars_with_subteams parts tail :
  chars (with_subteams parts tail) =
    foldr (λ part l, chars part.1 ++ chars (subteam_reference part.2.1 part.2.2) ++ l)
      (chars tail) parts.
Proof.
  induction parts as [|[before [id label]] parts IH]; [done|].
  cbn [with_subteams foldr fst snd]. by rewrite !chars_app, IH.
Qed.

Context {Msg Res : Type}.
Implicit Types m : Message Msg Res.

(** X21. Writing and reading subteam references agree when they have a
    label: on a message whose text holds references
    [<!subteam^id|label>], each after text without opening bracket,
    [subteamGroupsMentioned] gives the ids, in their order. *)
Theorem subteamGroupsMentioned_round_trip m (parts : list (string * (string * string)))
    (tail : string) :
  isMessage m = true →
  text_of m = Some (with_subteams parts tail) →
  Forall (λ part : string * (string * string),
            bracket_free part.1 = true ∧ id_of_kind "S" part.2.1 = true ∧
            closing_free part.2.2 = true) parts →
  bracket_free tail = true →
  subteamGroupsMentioned m = Some ((λ part, Some part.2.1) <$> parts).
Proof.
  intros Hmsg Htext Hparts Htail. unfold subteamGroupsMentioned, _regexMentions.
  rewrite Hmsg, Htext. cbn [to_string default from_option id].
  destruct subteams_pattern_head as [rs E].
  pose proof rmatch_subteam_reference as Hmatch. rewrite E in Hmatch. rewrite E.
  apply (regexMentions_loop_rendered rs
           (λ a, chars (subteam_reference a.1 a.2)) fst
           (λ a, id_of_kind "S" a.1 = true ∧ closing_free a.2 = true)
           _ parts tail [] _ []).
  - intros [id label] n rest0 [Hid Hlabel]. eexists. split; [by apply Hmatch|].
    split; [done|]. cbn [caps fst]. by rewrite lookup_insert_eq.
  - intros [id label] _. by rewrite chars_subteam_reference.
  - done.
  - done.
  - by rewrite chars_with_subteams.
  - rewrite <- chars_with_subteams. clear. lia.
Qed.

(** X22. A subteam reference without label, [<!subteam^id>], is read
    short: the pattern asks for a character between the id and the
    closing bracket, and the id gives it its last one. For an id of
    three characters or more [subteamGroupsMentioned] returns the id
    without its last character; for an id of two characters it finds
    nothing. *)
Theorem subteamGroupsMentioned_without_label m (before short after : string) (c : ascii) :
  isMessage m = true →
  text_of m = Some (before +:+ bare_subteam_reference (short +:+ String c "") +:+ after) →
  bracket_free before = true →
  bracket_free after = true →
  Spec.alnum c = true →
  (id_of_kind "S" short = true → subteamGroupsMentioned m = Some [Some short]) ∧
  (short = "S" → subteamGroupsMentioned m = Some []).
Proof.
  intros Hmsg Htext Hbefore Hafter Hc. unfold subteamGroupsMentioned, _regexMentions.
  rewrite Hmsg, Htext. cbn [to_string default from_option id].
  destruct subteams_pattern_head as [rs E]. split.
  - intros Hshort.
    pose proof rmatch_bare_subteam as Hmatch. rewrite E in Hmatch. rewrite E.
    apply (regexMentions_loop_rendered rs
             (λ a, chars (bare_subteam_reference (a.1 +:+ String a.2 ""))) fst
             (λ a, id_of_kind "S" a.1 = true ∧ Spec.alnum a.2 = true)
             _ [(before, (short, c))] after [] _ []).
    + intros [id d] n rest0 [Hid Hd]. eexists. split; [by apply Hmatch|].
      split; [done|]. cbn [caps fst]. by rewrite lookup_insert_eq.
    + intros [id d] _. by rewrite chars_bare_subteam_reference.
    + by repeat constructor.
    + done.
    + cbn [foldr fst snd app]. by rewrite !chars_app.
    + cbn [foldr fst snd]. rewrite !chars_app, !length_app. clear. lia.
  - intros ->. change ("S" +:+ String c "") with (String "S" (String c "")).
    cbn [regexMentions_loop].
    rewrite (exec_at _ _ [] _ eq_refl), !chars_app.
    pose proof (rmatch_short_subteam c (length (chars before ++
                  chars (bare_subteam_reference (String "S" (String c ""))) ++ chars after))
                  (chars after) ∅ Hc) as Hnone.
    rewrite E in *.
    rewrite search_bracket_free by by apply bracket_free_Forall.
    rewrite chars_bare_subteam_reference in Hnone |- *.
    change (chars "<!subteam^") with ("<"%char :: chars "!subteam^") in Hnone |- *.
    change (chars (String "S" (String c ""))) with ["S"%char; c] in Hnone |- *.
    rewrite <- !app_assoc in Hnone |- *. cbn [app search] in Hnone |- *.
    rewrite Hnone. rewrite search_nothing; [done|].
    apply Forall_app. split; [by repeat constructor|].
    constructor; [done|]. constructor; [intros ->; by vm_compute in Hc|].
    constructor; [done|]. by apply bracket_free_Forall.
Qed.

End Subteams.

(** ** Every reference is found *)

Section Complete.
Import Str RegExp Patterns Mentions Forward Render.

(** When the pattern matches at a position, the search from before it
    finds that match or one that starts earlier. *)
Lemma search_reaches re n l suffix y :
  rmatch false n re Some {| rest := suffix; caps := ∅ |} = Some y →
  (length (l ++ suffix) <= n)%nat →
  ∃ mt, search re false n (l ++ suffix) = Some mt ∧
        ((m_end mt = n - length (rest y) ∧ m_groups mt = of_chars <$> caps y) ∨
         (m_index mt < n - length suffix)%nat).
Proof.
  intros Hy. induction l as [|c l IH]; intros Hlen.
  - cbn [app]. rewrite (search_found _ _ _ _ _ Hy). eexists. split; [reflexivity|]. by left.
  - cbn [app search].
    destruct (rmatch false n re Some {| rest := c :: l ++ suffix; caps := ∅ |}) as [y'|].
    + eexists. split; [reflexivity|]. right. cbn [m_index]. cbn [app length] in *.
      rewrite length_app in *. lia.
    + apply IH. cbn [app length] in Hlen. lia.
Qed.

(** Where the search for the pattern of a kind finds a match, the text
    continues there with a reference to an id of the kind: the match
    is the reference and the group is the id. *)
Lemma search_id_at sigil letter n suffix mt :
  search (id_pattern sigil letter) false n suffix = Some mt →
  (length suffix <= n)%nat →
  ∃ id before after,
    suffix = before ++ chars (reference sigil id) ++ after ∧
    id_of_kind letter id = true ∧
    m_index mt = n - length suffix + length before ∧
    m_end mt = n - length after ∧
    m_groups mt !! 1 = Some id.
Proof.
  induction suffix as [|c suffix IH]; cbn [search].
  - destruct (rmatch _ _ _ _ _) as [y|] eqn:E; [|done].
    apply rmatch_id_Some in E as (id & _ & E & _). rewrite chars_reference in E. done.
  - destruct (rmatch _ _ _ _ _) as [y|] eqn:E.
    + intros [= <-] Hlen. apply rmatch_id_Some in E as (id & Hid & E & Hc).
      exists id, [], (rest y). cbn [m_groups m_index m_end app length].
      rewrite Hc, insert_empty, map_fmap_singleton, lookup_singleton_eq, of_chars_chars.
      repeat split; [done|done|lia].
    + intros H Hlen. cbn [length] in Hlen.
      apply IH in H as (id & before & after & -> & Hid & Hi & He & Hg); [|lia].
      exists id, (c :: before), after. cbn [app length] in *.
      repeat split; [done|lia|done|done].
Qed.

(** A reference holds one opening bracket, its first character. *)
Lemma reference_bracket sigil id letter j :
  sigil ≠ "<"%char → id_of_kind letter id = true → Spec.alnum letter = true →
  chars (reference sigil id) !! S j ≠ Some "<"%char.
Proof.
  intros Hsigil Hid Hletter. rewrite chars_reference. cbn [lookup list_lookup].
  destruct j as [|j]; cbn [lookup list_lookup]; [congruence|].
  intros Hj%list_elem_of_lookup_2.
  apply elem_of_app in Hj as [Hj|Hj%list_elem_of_singleton]; [|done].
  unfold id_of_kind in Hid. destruct (chars id) as [|c [|d tl]]; [done|done|].
  apply andb_prop in Hid as [->%bool_decide_eq_true Hal%forallb_Forall].
  apply elem_of_cons in Hj as [Hj|Hj].
  - subst letter. by vm_compute in Hletter.
  - apply (proj1 (Forall_forall _ _) Hal) in Hj. by vm_compute in Hj.
Qed.

(** A reference that starts before another one ends before it. *)
Lemma reference_before sigil letter id' (before' after' pre r : list ascii) :
  sigil ≠ "<"%char → id_of_kind letter id' = true → Spec.alnum letter = true →
  before' ++ chars (reference sigil id') ++ after' = pre ++ "<"%char :: r →
  (length before' < length pre)%nat →
  (length before' + length (chars (reference sigil id')) <= length pre)%nat.
Proof.
  intros Hsigil Hid Hletter E Hlt.
  destruct (decide (length before' + length (chars (reference sigil id')) <= length pre)%nat)
    as [|Hn]; [done|exfalso].
  assert (H : (before' ++ chars (reference sigil id') ++ after') !! length pre
              = Some "<"%char).
  { rewrite E. by rewrite lookup_app_r, Nat.sub_diag by lia. }
  rewrite lookup_app_r in H by lia.
  rewrite lookup_app_l in H by lia.
  destruct (length pre - length before') as [|j] eqn:Ej; [lia|].
  by apply (reference_bracket sigil id' letter j) in H.
Qed.

(** The loop of [_regexMentions] for the pattern of a kind does not
    pass over a reference to an id of the kind. *)
Lemma regexMentions_loop_complete sigil letter text pre id after fuel i acc :
  sigil ≠ "<"%char → Spec.alnum letter = true →
  chars text = pre ++ chars (reference sigil id) ++ after →
  id_of_kind letter id = true →
  (i <= length pre)%nat →
  (length (chars text) - i < fuel)%nat →
  ∃ found, regexMentions_loop (id_pattern sigil letter) text fuel i acc = Some found ∧
           Some id ∈ found.
Proof.
  intros Hsigil Hletter Htext Hid. revert i acc.
  induction fuel as [|fuel IH]; intros i acc Hi Hfuel; [lia|].
  cbn [regexMentions_loop].
  assert (Hdrop : drop i (chars text) = drop i pre ++ chars (reference sigil id) ++ after).
  { rewrite Htext, drop_app_le by done. done. }
  assert (Hlen : length (chars text)
                 = length pre + length (chars (reference sigil id)) + length after).
  { rewrite Htext, !length_app. lia. }
  pose proof (rmatch_reference sigil letter id (length (chars text)) after ∅ Hid) as Hy.
  assert (Hadv : advances (id_pattern sigil letter)) by apply advances_seq.
  destruct (search_reaches _ (length (chars text)) (drop i pre) _ _ Hy) as (mt & Hmt & Hcase).
  { rewrite <- Hdrop, length_drop. lia. }
  assert (Hexec : exec (id_pattern sigil letter) false text i = Some mt).
  { unfold exec. rewrite (proj2 (Nat.ltb_ge _ _)) by lia. by rewrite Hdrop. }
  rewrite Hexec. destruct (exec_bounds _ _ _ _ Hadv Hexec) as (Hlo & Hmid & Hhi).
  destruct Hcase as [[_ Hg]|Hearlier].
  - destruct (regexMentions_loop_total _ text fuel (m_end mt) (acc ++ [m_groups mt !! 1]) Hadv)
      as [found ->]; [lia|].
    eexists. split; [done|]. rewrite Hg. cbn [caps].
    rewrite insert_empty, map_fmap_singleton, lookup_singleton_eq, of_chars_chars.
    set_solver.
  - apply IH; [|lia].
    rewrite <- Hdrop in Hmt.
    apply search_id_at in Hmt as (id' & before' & after' & E & Hid' & Hidx & Hend & _);
      [|rewrite length_drop; lia].
    rewrite Hdrop in E. rewrite length_drop in Hidx.
    rewrite length_app in Hearlier.
    assert (Hdp : length (drop i pre) = length pre - i) by apply length_drop.
    assert (Hb : (length before' < length (drop i pre))%nat) by lia.
    rewrite chars_reference in E at 1. cbn [app] in E. symmetry in E.
    pose proof (reference_before sigil letter id' before' after' (drop i pre) _
                  Hsigil Hid' Hletter E Hb) as Hle.
    apply (f_equal length) in E. rewrite !length_app in E. cbn [length] in E.
    rewrite !length_app in E. rewrite chars_reference in Hlen. cbn [length] in Hlen.
    rewrite length_app in Hlen. cbn [length] in *. lia.
Qed.

Context {Msg Res : Type}.
Implicit Types m : Message Msg Res.

(** X23. [usersMentioned] and [channelsMentioned] miss no reference:
    on a message with a text, the id of every reference [<@id>] to a
    user id in the text is among the ids [usersMentioned] returns, and
    the id of every reference [<#id>] to a channel id is among those
    of [channelsMentioned], whatever else the text holds. *)
Theorem mentioned_ids_complete m text :
  isMessage m = true →
  text_of m = Some text →
  (∀ id before after,
     id_of_kind "U" id = true →
     chars text = before ++ chars (reference "@" id) ++ after →
     ∃ found, usersMentioned m = Some found ∧ Some id ∈ found) ∧
  (∀ id before after,
     id_of_kind "C" id = true →
     chars text = before ++ chars (reference "#" id) ++ after →
     ∃ found, channelsMentioned m = Some found ∧ Some id ∈ found).
Proof.
  intros Hmsg Htext. unfold usersMentioned, channelsMentioned, _regexMentions.
  rewrite Hmsg, Htext. cbn [to_string default from_option id].
  split; intros id before after Hid E.
  - apply (regexMentions_loop_complete "@" "U" text before id after); [done..|lia|lia].
  - apply (regexMentions_loop_complete "#" "C" text before id after); [done..|lia|lia].
Qed.

End Complete.

(** ** What the extraction methods return in general *)

Section Returns.
Import Str RegExp Patterns Spec.

Lemma before_first_not_in sep l : sep ∉ before_first sep l.
Proof.
  induction l as [|c l IH]; cbn [before_first]; [apply not_elem_of_nil|].
  case_bool_decide as Hc; [apply not_elem_of_nil|].
  intros [->|Hin]%elem_of_cons; [done|by apply IH].
Qed.

(** Whatever the loop of [linksMentioned] adds holds no bar. *)
Lemma links_loop_bar_free text fuel i acc links :
  links_loop text fuel i acc = Some (Ok links) →
  Forall (λ link, "|"%char ∉ chars link) acc →
  Forall (λ link, "|"%char ∉ chars link) links.
Proof.
  revert i acc. induction fuel as [|fuel IH]; intros i acc; [done|].
  cbn [links_loop]. destruct (exec _ _ _ _) as [mt|]; [|by intros [= <-]].
  destruct (m_groups mt !! 1) as [g|]; [|done].
  intros H Hacc. apply (IH _ _ H). apply Forall_app. split; [done|].
  constructor; [|done]. rewrite chars_of_chars. apply before_first_not_in.
Qed.

Context {Msg Res : Type}.
Implicit Types m : Message Msg Res.

(** X24. [linksMentioned] returns on every event and throws nothing,
    and what it returns is clean: no link holds [@], [^], [>] or a
    bar, so nothing of a user mention and no label is ever returned. *)
Theorem linksMentioned_returns m :
  ∃ links,
    linksMentioned m = Some (Ok links) ∧
    Forall (λ link, ∀ c, c ∈ chars link → c ∉ chars "@^>|") links.
Proof.
  destruct (linksMentioned_total m) as (links & Hl & Hfree). exists links. split; [done|].
  assert (Hbar : Forall (λ link, "|"%char ∉ chars link) links).
  { unfold linksMentioned in Hl. destruct (isMessage m); [|by injection Hl as <-].
    by apply (links_loop_bar_free _ _ _ _ _ Hl). }
  apply Forall_forall. intros link Hin c Hc.
  pose proof (proj1 (Forall_forall _ _) Hfree link Hin) as Hlink.
  pose proof (proj1 (Forall_forall _ _) Hbar link Hin) as Hb.
  pose proof (proj1 (Forall_forall _ _) Hlink c Hc) as Hchar. cbn beta in Hchar.
  intros Hbad. cbn in Hbad.
  repeat (apply elem_of_cons in Hbad as [->|Hbad]; [by (done || vm_compute in Hchar)|]).
  by apply elem_of_nil in Hbad.
Qed.

(** X25. What [stripDirectMention] returns for a message with a text,
    for a bot user id of pattern characters: when the text begins with
    the mention token, written as it is, the result is what follows
    the token on the first line, without one colon right after the
    token, trimmed; otherwise it is the text. *)
Theorem stripDirectMention_general m text :
  isMessage m = true →
  text_of m = Some text →
  literal_text (bot_user_id (meta m)) = true →
  (∀ after,
     chars text = chars (mention_token (bot_user_id (meta m))) ++ after →
     stripDirectMention m = Some (Ok (trim (of_chars (line_prefix (drop_colon after)))))) ∧
  ((∀ after, chars text ≠ chars (mention_token (bot_user_id (meta m))) ++ after) →
   stripDirectMention m = Some (Ok text)).
Proof.
  intros Hmsg Htext Hlit. split.
  - intros after E. rewrite (stripDirectMention_message m text) by done.
    apply strip_lits_exact in E. by rewrite E.
  - by apply stripDirectMention_unchanged.
Qed.

(** X26. [isDirectMessage] is true exactly for a message whose channel
    id begins with [D]; it throws exactly for a message without
    channel id. For a bot user id of pattern characters and dots (the
    ids whose patterns [spliced] builds), [isAmbient] answers or throws,
    and throws exactly for a message without channel id that does not
    mention the bot: when it mentions the bot the channel is not looked
    at. *)
Theorem isDirectMessage_channel m :
  (isDirectMessage m = Ok true ↔
   isMessage m = true ∧ ∃ tail, channel_id (meta m) = Some (String "D" tail)) ∧
  ((∃ e, isDirectMessage m = Throw e) ↔
   isMessage m = true ∧ channel_id (meta m) = None) ∧
  (is_Some (spliced (chars (bot_user_id (meta m)))) →
   is_Some (isAmbient m) ∧
   ((∃ e, isAmbient m = Some (Throw e)) ↔
    isMessage m = true ∧ isMention m = Some false ∧ channel_id (meta m) = None)).
Proof.
  assert (H1 : isDirectMessage m = Ok true ↔
               isMessage m = true ∧ ∃ tail, channel_id (meta m) = Some (String "D" tail)).
  { unfold isDirectMessage. destruct (isMessage m); [|split; [done|by intros [? _]]].
    destruct (channel_id (meta m)) as [[|c tail]|]; cbn.
    - split; [done|by intros [_ [? ?]]].
    - split.
      + intros [= ->%bool_decide_eq_true]. split; [done|by eexists].
      + intros [_ [? [= -> ->]]]. by rewrite bool_decide_eq_true_2.
    - split; [done|by intros [_ [? ?]]]. }
  assert (H2 : (∃ e, isDirectMessage m = Throw e) ↔
               isMessage m = true ∧ channel_id (meta m) = None).
  { unfold isDirectMessage. destruct (isMessage m); [|split; [by intros [? ?]|by intros [? _]]].
    destruct (channel_id (meta m)).
    - split; [by intros [? ?]|by intros [_ ?]].
    - split; [done|]. intros _. by eexists. }
  split; [exact H1|]. split; [exact H2|].
  intros [ids Hids].
  assert (Hm : is_Some (isMention m)).
  { unfold isMention, mention_pattern. rewrite Hids. cbn [mbind option_bind].
    by destruct (isMessage m). }
  unfold isAmbient. destruct (isMessage m).
  2:{ split; [done|]. split; [by intros [? ?]|by intros [? _]]. }
  destruct (isMention m) as [[|]|]; cbn [outcome_of outcome_bind].
  - split; [done|]. split; [by intros [? ?]|by intros (_ & ? & _)].
  - destruct (isDirectMessage m) as [d|e]; cbn [outcome_bind].
    + split; [done|]. split; [by intros [? ?]|]. intros (_ & _ & Hc).
      destruct (proj2 H2 (conj eq_refl Hc)) as [? ?]. done.
    + split; [done|]. split; [|by eexists]. intros _.
      destruct (proj1 H2) as [_ Hc]; [by eexists|]. done.
  - by destruct Hm.
Qed.

End Returns.

(** ** The properties on sample events *)

(** Two user references in a sentence. *)
Lemma usersMentioned_round_trip_witness :
  usersMentioned (Examples.text_message (Msg:=unit) (Res:=unit) "hi <@U1>, meet <@U2abc>!" "U123")
  = Some [Some "U1"; Some "U2abc"].
Proof.
  apply (usersMentioned_round_trip _ [("hi ", "U1"); (", meet ", "U2abc")] "!");
    [reflexivity | reflexivity | repeat constructor | reflexivity].
Defined.

Lemma channelsMentioned_round_trip_witness :
  channelsMentioned (Examples.text_message (Msg:=unit) (Res:=unit) "see <#C1> and <#C22>" "U123")
  = Some [Some "C1"; Some "C22"].
Proof.
  apply (channelsMentioned_round_trip _ [("see ", "C1"); (" and ", "C22")] "");
    [reflexivity | reflexivity | repeat constructor | reflexivity].
Defined.

(** A reference in lower case is no user reference. *)
Lemma mentioned_ids_sound_witness :
  ∃ ids, [Some "U1"] = Some <$> ids ∧
         Forall (λ id, Render.id_of_kind "U" id = true) ids.
Proof.
  destruct (proj1 (mentioned_ids_sound
                     (Examples.text_message (Msg:=unit) (Res:=unit) "<@U1> <@u2>" "U123"))
              [Some "U1"] eq_refl) as (ids & E & H).
  exists ids. split; [exact E|].
  eapply Forall_impl; [exact H|]. by intros id [Hid _].
Defined.

Lemma isDirectMention_isMention_witness :
  ∃ direct anywhere,
    isDirectMention (Examples.text_message (Msg:=unit) (Res:=unit) "<@U123> hi" "U123") = Some direct ∧
    isMention (Examples.text_message (Msg:=unit) (Res:=unit) "<@U123> hi" "U123") = Some anywhere ∧
    (direct = true → anywhere = true).
Proof. apply isDirectMention_isMention. by eexists. Defined.

(** A name that is no filter, then the filter that matches. *)
Lemma isAnyOf_any_witness :
  ∃ found,
    isAnyOf (Examples.text_message (Msg:=unit) (Res:=unit) "hello" "U123") ["bogus"; "ambient"]
    = Some (Ok found) ∧ found = true.
Proof.
  destruct (isAnyOf_any (Examples.text_message (Msg:=unit) (Res:=unit) "hello" "U123")
              ["bogus"; "ambient"] false false false eq_refl eq_refl eq_refl)
    as (found & E & H).
  exists found. split; [exact E|]. apply H. right. right. left.
  split; [|reflexivity]. apply list_elem_of_further, list_elem_of_here.
Defined.

Lemma isAnyOf_exhaustive_witness :
  isAnyOf (Examples.text_message (Msg:=unit) (Res:=unit) "hello" "U123")
    ["mention"; "ambient"; "direct_message"] = Some (Ok true).
Proof.
  apply isAnyOf_exhaustive;
    [reflexivity | by eexists | by eexists
    | apply list_elem_of_here
    | apply list_elem_of_further, list_elem_of_further, list_elem_of_here
    | apply list_elem_of_further, list_elem_of_here].
Defined.

Lemma isAmbient_excludes_witness :
  isMessage (Examples.text_message (Msg:=unit) (Res:=unit) "hello" "U123") = true ∧
  isMention (Examples.text_message (Msg:=unit) (Res:=unit) "hello" "U123") = Some false ∧
  isDirectMention (Examples.text_message (Msg:=unit) (Res:=unit) "hello" "U123") = Some false ∧
  isDirectMessage (Examples.text_message (Msg:=unit) (Res:=unit) "hello" "U123") = Ok false.
Proof. apply isAmbient_excludes. reflexivity. Defined.

(** A slash command is no message event. *)
Lemma not_a_message_witness :
  isAnyOf (new_Message (Msg:=unit) (Res:=unit) "command" {| event := None |} Examples.meta0)
    ["ambient"; "direct_message"] = Some (Ok false) ∧
  usersMentioned (new_Message (Msg:=unit) (Res:=unit) "command" {| event := None |} Examples.meta0)
    = Some [].
Proof.
  destruct (not_a_message
              (new_Message (Msg:=unit) (Res:=unit) "command" {| event := None |} Examples.meta0)
              eq_refl) as (_ & _ & _ & _ & Hany & Husers & _).
  split; [apply Hany | exact Husers].
Defined.


Lemma respond_done_data_witness :
  get_prop (JObj {[ "ts" := JStr "1" ]}) "ok" = Ok JUndefined.
Proof.
  exact (proj1 (proj2 (proj2
           (respond_done_data JNull (JObj {[ "ok" := JBool true; "ts" := JStr "1" ]})
              (JObj {[ "ts" := JStr "1" ]}) eq_refl)))).
Defined.

Lemma stripped_is_direct_mention_witness :
  isDirectMention (Examples.text_message (Msg:=unit) (Res:=unit) "<@U123>: hi" "U123")
  = Some true.
Proof.
  apply (stripped_is_direct_mention _ "<@U123>: hi" "hi");
    [reflexivity | reflexivity | reflexivity | reflexivity | discriminate].
Defined.

(** The mention token in lower case. *)
Lemma direct_mention_not_stripped_witness :
  isDirectMention (Examples.text_message (Msg:=unit) (Res:=unit) "<@u123> hi" "U123")
  = Some true ∧
  stripDirectMention (Examples.text_message (Msg:=unit) (Res:=unit) "<@u123> hi" "U123")
  = Some (Ok "<@u123> hi").
Proof.
  apply (direct_mention_not_stripped _ "<@u123> hi" (Str.chars "<@u123>") (Str.chars " hi"));
    [reflexivity | reflexivity | reflexivity | reflexivity | repeat constructor | discriminate].
Defined.

(** A link with a label and a link without. *)
Lemma linksMentioned_round_trip_witness :
  linksMentioned
    (Examples.text_message (Msg:=unit) (Res:=unit) "see <http://a.co|A> and <http://b.co>." "U123")
  = Some (Ok ["http://a.co"; "http://b.co"]).
Proof.
  apply (linksMentioned_round_trip _
           [("see ", ("http://a.co", Some "A")); (" and ", ("http://b.co", None))] ".");
    [reflexivity | reflexivity | repeat constructor | reflexivity].
Defined.

Lemma subteamGroupsMentioned_round_trip_witness :
  subteamGroupsMentioned
    (Examples.text_message (Msg:=unit) (Res:=unit) "ping <!subteam^S123|@team> now" "U123")
  = Some [Some "S123"].
Proof.
  apply (subteamGroupsMentioned_round_trip _ [("ping ", ("S123", "@team"))] " now");
    [reflexivity | reflexivity | repeat constructor | reflexivity].
Defined.

(** The id S456, without label, is read as S45. *)
Lemma subteamGroupsMentioned_without_label_witness :
  subteamGroupsMentioned
    (Examples.text_message (Msg:=unit) (Res:=unit) "ping <!subteam^S456> now" "U123")
  = Some [Some "S45"].
Proof.
  apply (proj1 (subteamGroupsMentioned_without_label
                  (Examples.text_message (Msg:=unit) (Res:=unit) "ping <!subteam^S456> now" "U123")
                  "ping " "S45" " now" "6" eq_refl eq_refl eq_refl eq_refl eq_refl)).
  reflexivity.
Defined.

(** A reference right after a broken one. *)
Lemma mentioned_ids_complete_witness :
  ∃ found,
    usersMentioned (Examples.text_message (Msg:=unit) (Res:=unit) "<@U1<@U2> hi" "U123")
    = Some found ∧ Some "U2" ∈ found.
Proof.
  apply (proj1 (mentioned_ids_complete
                  (Examples.text_message (Msg:=unit) (Res:=unit) "<@U1<@U2> hi" "U123")
                  "<@U1<@U2> hi" eq_refl eq_refl)
           "U2" (Str.chars "<@U1") (Str.chars " hi"));
    reflexivity.
Defined.

(** A text of two lines. *)
Lemma stripDirectMention_general_witness :
  stripDirectMention
    (Examples.text_message (Msg:=unit) (Res:=unit) ("<@U123>: hi" +:+ Examples.LF +:+ "there") "U123")
  = Some (Ok "hi").
Proof.
  apply (proj1 (stripDirectMention_general
                  (Examples.text_message (Msg:=unit) (Res:=unit)
                     ("<@U123>: hi" +:+ Examples.LF +:+ "there") "U123")
                  ("<@U123>: hi" +:+ Examples.LF +:+ "there") eq_refl eq_refl eq_refl)
           (Str.chars (": hi" +:+ Examples.LF +:+ "there"))).
  reflexivity.
Defined.
